(** * Interaction-to-Next-Paint tracking (web-vitals [onINP])

    A shallow embedding of the INP module of the repository: the list of
    longest interactions, its lookup map, the p98 estimator and the three
    callbacks registered by [onINP] (entry batches, page hidden, bfcache
    restore).

    JavaScript objects are shared by reference: the same [Interaction]
    object is reachable from [longestInteractionList], from
    [longestInteractionMap] and, through its [entries] array, from the
    metric object.  The embedding therefore keeps the objects in a store
    and lets the list, the map and the metric hold references.

    Numbers are modelled as [Z] (event durations are multiples of 8ms;
    counts are integers).  An exception (reading a property of
    [undefined]) is [None] in the option monad. *)

From stdpp Require Import gmap strings list fin_maps sorting.

Local Open Scope Z_scope.

(** ** Data *)

(** The fields of a [PerformanceEventTiming] the module reads.
    [interactionId] is optional in the source: [None] is [undefined]. *)
Record PerformanceEventTiming := {
  interactionId : option Z;
  duration : Z;
  startTime : Z;
  entryType : string;
}.

(** A reference to an object of a store: its position there. *)
Abbreviation ref := nat (only parsing).

Module Interaction.
(** [interface Interaction { id; latency; entries }] *)
Record t := {
  id : option Z;
  latency : Z;
  entries : list PerformanceEventTiming;
}.
End Interaction.

(** An array held by a metric object: either an array literal [[]] of its
    own, or the [entries] array of the [Interaction] object at a
    reference (the assignment [metric.entries = inp.entries] shares the
    array). *)
Inductive ArrayRef :=
  | NewArray
  | EntriesOf (i : ref).

Module Metric.
(** The fields of the metric object the module reads and writes. *)
Record t := {
  value : Z;
  entries : ArrayRef;
}.
End Metric.

(** One call of the bound reporter [report(forceReport)]: the flag, the
    metric object the reporter was bound to, and what that object held
    when the call was made. *)
Record ReportCall := {
  forceReport : bool;
  boundMetric : ref;
  reportedValue : Z;
  reportedEntries : list PerformanceEventTiming;
}.

(** The module-level variables, the two closure variables of [onINP]
    ([metric], [report]), the two object stores and the calls made to the
    reporter so far.  [longestInteractionMap] is a plain object indexed
    by [interaction.id]: the id becomes a property name, and different
    ids (or [undefined]) give different names, so the keys are the ids
    themselves. *)
Record State := {
  heap : list Interaction.t;
  longestInteractionList : list ref;
  longestInteractionMap : gmap (option Z) ref;
  prevInteractionCount : Z;
  metrics : list Metric.t;
  metric : ref;
  report : ref;
  reported : list ReportCall;
}.

Definition MAX_INTERACTIONS_TO_CONSIDER : nat := 10.

(** Modelled from the spec: [initMetric] (lib/initMetric.js is not among
    the sources).  The metric starts with the unset sentinel, a negative
    value, and an empty entries array of its own. *)
Definition initMetric : Metric.t :=
  {| Metric.value := -1; Metric.entries := NewArray |}.

(** The state once [whenActivated] has run the body of [onINP]. *)
Definition init : State :=
  {| heap := [];
     longestInteractionList := [];
     longestInteractionMap := ∅;
     prevInteractionCount := 0;
     metrics := [initMetric];
     metric := 0%nat;
     report := 0%nat;
     reported := [] |}.

(** ** JavaScript primitives *)

(** Truthiness of an optional number: [undefined] and [0] are falsy. *)
Definition truthy (n : option Z) : bool :=
  match n with
  | Some k => negb (k =? 0)
  | None => false
  end.

(** [a[i]] for a number [i]: [undefined] outside the array. *)
Definition index {A} (a : list A) (i : Z) : option A :=
  if i <? 0 then None else a !! Z.to_nat i.

(** [Array.prototype.sort(cmp)]: stable (ECMAScript 2019), an element
    moves behind another one only when [cmp] says so with a positive
    result.  The general lemmas below use only that the result is a
    permutation of the array, sorted by the comparator. *)
Fixpoint insert_by {A} (cmp : A → A → Z) (x : A) (l : list A) : list A :=
  match l with
  | [] => [x]
  | y :: l' => if 0 <? cmp x y then y :: insert_by cmp x l' else x :: l
  end.

Definition sort {A} (cmp : A → A → Z) (l : list A) : list A :=
  foldr (insert_by cmp) [] l.

(** The comparator of the source, [(a, b) => b.latency - a.latency], on
    references resolved to their objects. *)
Definition byLatencyDesc (a b : ref * Interaction.t) : Z :=
  Interaction.latency b.2 - Interaction.latency a.2.

(** Resolving the references of an array to the objects they point to. *)
Definition resolve (h : list Interaction.t) (l : list ref)
  : option (list (ref * Interaction.t)) :=
  mapM (λ r, i ← h !! r; Some (r, i)) l.

(** ** The tracker *)

Definition getInteractionCountForNavigation (interactionCount : Z) (s : State) : Z :=
  interactionCount - prevInteractionCount s.

(** The test of [processEntry], with the short-circuit of [||]:
    [minLongestInteraction.latency] is read only when the first two
    disjuncts are false, and fails on [undefined]. *)
Definition possiblyLongest (entry : PerformanceEventTiming) (s : State) : option bool :=
  let minLongestInteraction := last (longestInteractionList s) in
  let existingInteraction := longestInteractionMap s !! interactionId entry in
  if bool_decide (is_Some existingInteraction) then Some true
  else if bool_decide (length (longestInteractionList s) < MAX_INTERACTIONS_TO_CONSIDER)%nat
  then Some true
  else
    m ← minLongestInteraction;
    i ← heap s !! m;
    Some (bool_decide (duration entry > Interaction.latency i)).

(** The first half of the body: update the existing object in place, or
    create one and add it to the map and to the list. *)
Definition upsert (entry : PerformanceEventTiming) (s : State) : option State :=
  match longestInteractionMap s !! interactionId entry with
  | Some r =>
      existingInteraction ← heap s !! r;
      let updated :=
        {| Interaction.id := Interaction.id existingInteraction;
           Interaction.latency :=
             Z.max (Interaction.latency existingInteraction) (duration entry);
           Interaction.entries :=
             Interaction.entries existingInteraction ++ [entry] |} in
      Some {| heap := <[r := updated]> (heap s);
              longestInteractionList := longestInteractionList s;
              longestInteractionMap := longestInteractionMap s;
              prevInteractionCount := prevInteractionCount s;
              metrics := metrics s;
              metric := metric s;
              report := report s;
              reported := reported s |}
  | None =>
      let interaction :=
        {| Interaction.id := interactionId entry;
           Interaction.latency := duration entry;
           Interaction.entries := [entry] |} in
      let r := length (heap s) in
      Some {| heap := heap s ++ [interaction];
              longestInteractionList := longestInteractionList s ++ [r];
              longestInteractionMap :=
                <[Interaction.id interaction := r]> (longestInteractionMap s);
              prevInteractionCount := prevInteractionCount s;
              metrics := metrics s;
              metric := metric s;
              report := report s;
              reported := reported s |}
  end.

(** [removed.forEach((i) => delete longestInteractionMap[i.id])] *)
Definition forget (removed : list (ref * Interaction.t))
    (m : gmap (option Z) ref) : gmap (option Z) ref :=
  foldl (λ m i, delete (Interaction.id i.2) m) m removed.

(** The second half: sort by latency, keep the first ten, delete the
    others from the map. *)
Definition sortAndTrim (s : State) : option State :=
  objs ← resolve (heap s) (longestInteractionList s);
  let sorted := sort byLatencyDesc objs in
  let removed := drop MAX_INTERACTIONS_TO_CONSIDER sorted in
  Some {| heap := heap s;
          longestInteractionList := (take MAX_INTERACTIONS_TO_CONSIDER sorted).*1;
          longestInteractionMap := forget removed (longestInteractionMap s);
          prevInteractionCount := prevInteractionCount s;
          metrics := metrics s;
          metric := metric s;
          report := report s;
          reported := reported s |}.

Definition processEntry (entry : PerformanceEventTiming) (s : State) : option State :=
  ok ← possiblyLongest entry s;
  if ok : bool then upsert entry s ≫= sortAndTrim else Some s.

(** ** The estimator *)

(** [estimateP98LongestInteraction]: [None] is the [undefined] an
    out-of-range index gives. *)
Definition estimateP98LongestInteraction (interactionCount : Z) (s : State) : option ref :=
  let candidateInteractionIndex :=
    Z.min (Z.of_nat (length (longestInteractionList s)) - 1)
          (getInteractionCountForNavigation interactionCount s `div` 50) in
  index (longestInteractionList s) candidateInteractionIndex.

(** ** The metric object and the reporter *)

Definition readArray (h : list Interaction.t) (a : ArrayRef)
  : option (list PerformanceEventTiming) :=
  match a with
  | NewArray => Some []
  | EntriesOf r => Interaction.entries <$> h !! r
  end.

(** Assignments to the fields of the object the variable [metric] holds. *)
Definition setMetric (m : Metric.t) (s : State) : State :=
  {| heap := heap s;
     longestInteractionList := longestInteractionList s;
     longestInteractionMap := longestInteractionMap s;
     prevInteractionCount := prevInteractionCount s;
     metrics := <[metric s := m]> (metrics s);
     metric := metric s;
     report := report s;
     reported := reported s |}.

(** A call [report(forceReport)].  The reporter is the closure returned
    by [bindReporter], a collaborator outside this module: the call is
    recorded together with what the metric object it is bound to holds. *)
Definition callReport (force : bool) (s : State) : option State :=
  m ← metrics s !! report s;
  es ← readArray (heap s) (Metric.entries m);
  Some {| heap := heap s;
          longestInteractionList := longestInteractionList s;
          longestInteractionMap := longestInteractionMap s;
          prevInteractionCount := prevInteractionCount s;
          metrics := metrics s;
          metric := metric s;
          report := report s;
          reported := reported s ++
            [{| forceReport := force;
                boundMetric := report s;
                reportedValue := Metric.value m;
                reportedEntries := es |}] |}.

(** ** The callbacks of [onINP] *)

(** [longestInteractionList.some(i => i.entries.some(prev => ...))] *)
Definition matchingEntry (entry : PerformanceEventTiming) (s : State) : option bool :=
  objs ← resolve (heap s) (longestInteractionList s);
  Some (existsb (λ interaction : ref * Interaction.t,
          existsb (λ prevEntry,
              bool_decide (duration entry = duration prevEntry) &&
              bool_decide (startTime entry = startTime prevEntry))
            (Interaction.entries interaction.2))
        objs).

(** The body of [entries.forEach] in [handleEntries]. *)
Definition handleEntry (entry : PerformanceEventTiming) (s : State) : option State :=
  s1 ← (if truthy (interactionId entry) then processEntry entry s else Some s);
  if String.eqb (entryType entry) "first-input" then
    found ← matchingEntry entry s1;
    let noMatchingEntry := negb found in
    if noMatchingEntry then processEntry entry s1 else Some s1
  else Some s1.

Fixpoint forEach {A} (f : A → State → option State) (l : list A) (s : State)
  : option State :=
  match l with
  | [] => Some s
  | x :: l' => f x s ≫= forEach f l'
  end.

(** [handleEntries].  [interactionCount] is what [getInteractionCount()]
    returns while the callback runs. *)
Definition handleEntries (interactionCount : Z)
    (entries : list PerformanceEventTiming) (s : State) : option State :=
  s1 ← forEach handleEntry entries s;
  match estimateP98LongestInteraction interactionCount s1 with
  | None => Some s1
  | Some r =>
      inp ← heap s1 !! r;
      m ← metrics s1 !! metric s1;
      if bool_decide (Interaction.latency inp ≠ Metric.value m) then
        callReport false
          (setMetric {| Metric.value := Interaction.latency inp;
                        Metric.entries := EntriesOf r |} s1)
      else Some s1
  end.

(** The [onHidden] callback; [records] is what [po.takeRecords()] returns. *)
Definition onHidden (interactionCount : Z)
    (records : list PerformanceEventTiming) (s : State) : option State :=
  s1 ← handleEntries interactionCount records s;
  m ← metrics s1 !! metric s1;
  let s2 :=
    if bool_decide (Metric.value m < 0) &&
       bool_decide (getInteractionCountForNavigation interactionCount s1 > 0)
    then setMetric {| Metric.value := 0; Metric.entries := NewArray |} s1
    else s1 in
  callReport true s2.

(** The [onBFCacheRestore] callback.  The map is a [const] the callback
    does not touch. *)
Definition onBFCacheRestore (interactionCount : Z) (s : State) : option State :=
  let fresh := length (metrics s) in
  Some {| heap := heap s;
          longestInteractionList := [];
          longestInteractionMap := longestInteractionMap s;
          prevInteractionCount := interactionCount;
          metrics := metrics s ++ [initMetric];
          metric := fresh;
          report := fresh;
          reported := reported s |}.

(** What the host delivers to the module. *)
Inductive Notification :=
  | Entries (interactionCount : Z) (entries : list PerformanceEventTiming)
  | Hidden (interactionCount : Z) (records : list PerformanceEventTiming)
  | BFCacheRestore (interactionCount : Z).

Definition deliver (n : Notification) (s : State) : option State :=
  match n with
  | Entries c es => handleEntries c es s
  | Hidden c es => onHidden c es s
  | BFCacheRestore c => onBFCacheRestore c s
  end.

Definition run (ns : list Notification) (s : State) : option State :=
  forEach deliver ns s.

(** States the module can be in. *)
Definition reachable (s : State) : Prop := ∃ ns, run ns init = Some s.

(** * Definitions used in the statements *)

(** ** Invariants *)

(** [m] is the maximum of the durations of [es]. *)
Definition maxDuration (m : Z) (es : list PerformanceEventTiming) : Prop :=
  (∃ e, e ∈ es ∧ duration e = m) ∧ ∀ e, e ∈ es → duration e ≤ m.

(** Every reference held by the module points to an object: what the
    JavaScript heap guarantees by construction. *)
Record closed (s : State) : Prop := {
  closed_list r :
    r ∈ longestInteractionList s → (r < length (heap s))%nat;
  closed_map k r :
    longestInteractionMap s !! k = Some r → (r < length (heap s))%nat;
  closed_metric : (metric s < length (metrics s))%nat;
  closed_report : (report s < length (metrics s))%nat;
  closed_entries n m r :
    metrics s !! n = Some m → Metric.entries m = EntriesOf r →
    (r < length (heap s))%nat;
}.

(** How the list, the map and the objects hang together, whether or not
    the list has been sorted and trimmed yet. *)
Record linked (s : State) : Prop := {
  linked_closed : closed s;
  linked_report : report s = metric s;
  linked_NoDup : NoDup (longestInteractionList s);
  linked_list_map r i :
    r ∈ longestInteractionList s → heap s !! r = Some i →
    longestInteractionMap s !! Interaction.id i = Some r;
  linked_map_id k r i :
    longestInteractionMap s !! k = Some r → heap s !! r = Some i →
    Interaction.id i = k;
  linked_latency r i :
    heap s !! r = Some i →
    maxDuration (Interaction.latency i) (Interaction.entries i);
}.

(** The list is sorted by latency, longest first. *)
Definition sortedByLatency (s : State) : Prop :=
  ∀ n1 n2 r1 r2 i1 i2,
    (n1 < n2)%nat →
    longestInteractionList s !! n1 = Some r1 →
    longestInteractionList s !! n2 = Some r2 →
    heap s !! r1 = Some i1 → heap s !! r2 = Some i2 →
    Interaction.latency i2 ≤ Interaction.latency i1.

Record consistent (s : State) : Prop := {
  consistent_linked : linked s;
  consistent_length :
    (length (longestInteractionList s) ≤ MAX_INTERACTIONS_TO_CONSIDER)%nat;
  consistent_sorted : sortedByLatency s;
}.

(** The map holds exactly the interactions of the list, under their ids. *)
Definition mapMirrorsList (s : State) : Prop :=
  ∀ k r,
    longestInteractionMap s !! k = Some r ↔
    r ∈ longestInteractionList s ∧ Interaction.id <$> heap s !! r = Some k.

(** The order the comparator of the source stands for: [a] may come
    before [b]. *)
Definition notShorter (a b : ref * Interaction.t) : Prop :=
  Interaction.latency b.2 ≤ Interaction.latency a.2.

(** The object an entry is merged into, and the object made for an entry. *)
Definition mergeEntry (i : Interaction.t) (entry : PerformanceEventTiming) : Interaction.t :=
  {| Interaction.id := Interaction.id i;
     Interaction.latency := Z.max (Interaction.latency i) (duration entry);
     Interaction.entries := Interaction.entries i ++ [entry] |}.

Definition newInteraction (entry : PerformanceEventTiming) : Interaction.t :=
  {| Interaction.id := interactionId entry;
     Interaction.latency := duration entry;
     Interaction.entries := [entry] |}.

(** The three cases in which [processEntry] takes an entry: its id is
    in the map, the list has fewer than ten interactions, or its duration
    exceeds the latency of the last interaction of the list. *)
Definition acceptable (entry : PerformanceEventTiming) (s : State) : Prop :=
  is_Some (longestInteractionMap s !! interactionId entry) ∨
  (length (longestInteractionList s) < MAX_INTERACTIONS_TO_CONSIDER)%nat ∨
  ∃ m i, last (longestInteractionList s) = Some m ∧ heap s !! m = Some i ∧
         duration entry > Interaction.latency i.

(** Every interaction of the map is in the list. *)
Definition mapWithinList (s : State) : Prop :=
  ∀ k r, longestInteractionMap s !! k = Some r → r ∈ longestInteractionList s.

(** Some entry stored in an interaction of the list has the duration and
    the start time of [entry]. *)
Definition hasMatchingEntry (entry : PerformanceEventTiming) (s : State) : Prop :=
  ∃ r i prevEntry,
    r ∈ longestInteractionList s ∧ heap s !! r = Some i ∧
    prevEntry ∈ Interaction.entries i ∧
    duration entry = duration prevEntry ∧ startTime entry = startTime prevEntry.

(** ** Example inputs *)

(** An [event] entry of interaction [id] with duration [dur]. *)
Definition ev (id dur : Z) : PerformanceEventTiming :=
  {| interactionId := Some id; duration := dur; startTime := 0; entryType := "event" |}.

(** A [first-input] entry, with or without an interaction id. *)
Definition firstInput (id : option Z) (dur start : Z) : PerformanceEventTiming :=
  {| interactionId := id; duration := dur; startTime := start;
     entryType := "first-input" |}.

(** Interactions [1..n], one entry each, with latencies [10, 20, .., 10 * n]. *)
Definition increasing (n : nat) : list PerformanceEventTiming :=
  (λ k, ev (Z.of_nat k) (10 * Z.of_nat k)) <$> seq 1 n.

(** The state after a batch of ten interactions with latencies 10..100. *)
Definition tenInteractions : State :=
  Eval vm_compute in default init (run [Entries 10 (increasing 10)] init).

(** The ids and latencies of the interactions of the list, in order. *)
Definition tracked (s : State) : option (list (option Z * Z)) :=
  fmap (M := list)
       (λ p : ref * Interaction.t, (Interaction.id p.2, Interaction.latency p.2))
  <$> resolve (heap s) (longestInteractionList s).

(** An [event] entry of something that is no interaction: the host gives
    it the id 0. *)
Definition noInteraction : PerformanceEventTiming :=
  {| interactionId := Some 0; duration := 48; startTime := 5; entryType := "event" |}.

(** An interaction seen through an [event] entry, and the [first-input]
    entry of the same input, without an id. *)
Definition firstEvent : PerformanceEventTiming :=
  {| interactionId := Some 1; duration := 48; startTime := 5; entryType := "event" |}.

Definition afterFirstEvent : State :=
  Eval vm_compute in default init (run [Entries 1 [firstEvent]] init).

(** An interaction made of three entries, with another one in between. *)
Definition threeFragments : list PerformanceEventTiming :=
  [ev 2 100; ev 1 350; ev 1 200].

Definition afterFirstFragment : State :=
  Eval vm_compute in default init (processEntry (ev 1 300) init).

Definition afterThreeFragments : State :=
  Eval vm_compute in default init (forEach processEntry threeFragments afterFirstFragment).

(** The latency of the estimate, when there is one. *)
Definition estimatedLatency (interactionCount : Z) (s : State) : option Z :=
  r ← estimateP98LongestInteraction interactionCount s;
  Interaction.latency <$> heap s !! r.

(** A page that is restored from the bfcache after one interaction. *)
Definition restoredAfterOne : State :=
  Eval vm_compute in
    default init (run [Entries 1 [ev 1 100]; BFCacheRestore 1] init).

(** A [first-input] entry that carries the id of interaction 1. *)
Definition firstInputWithId : PerformanceEventTiming :=
  firstInput (Some 1) 56 9.

(** ** Further definitions used in the statements *)

(** The comparator [(a, b) => b - a] on numbers: longest first. *)
Definition byValueDesc (a b : Z) : Z := b - a.

(** The ten longest of a collection of durations, longest first. *)
Definition topLatencies (ds : list Z) : list Z :=
  take MAX_INTERACTIONS_TO_CONSIDER (sort byValueDesc ds).

(** The latencies of the interactions of the list, in order. *)
Definition trackedLatencies (s : State) : option (list Z) :=
  fmap (M := list) snd <$> tracked s.

(** The interaction count of the host at the time of a notification. *)
Definition countOf (n : Notification) : Z :=
  match n with
  | Entries c _ | Hidden c _ | BFCacheRestore c => c
  end.

(** Two states agree on what the tracker owns: the objects, the list and
    the map. *)
Definition sameTracker (s t : State) : Prop :=
  heap s = heap t ∧
  longestInteractionList s = longestInteractionList t ∧
  longestInteractionMap s = longestInteractionMap t.

(** Two states agree on everything else: the baseline, the metric
    objects, the reporter and the calls made to it. *)
Definition sameSession (s t : State) : Prop :=
  prevInteractionCount s = prevInteractionCount t ∧
  metrics s = metrics t ∧
  metric s = metric t ∧
  report s = report t ∧
  reported s = reported t.

(** The three cases of the test of [processEntry] with the first one
    read on the list: an interaction of the list has the id of the
    entry. *)
Definition acceptableAsTracked (entry : PerformanceEventTiming) (s : State) : Prop :=
  (∃ r i, r ∈ longestInteractionList s ∧ heap s !! r = Some i ∧
          Interaction.id i = interactionId entry) ∨
  (length (longestInteractionList s) < MAX_INTERACTIONS_TO_CONSIDER)%nat ∨
  ∃ m i, last (longestInteractionList s) = Some m ∧ heap s !! m = Some i ∧
         duration entry > Interaction.latency i.

(** Interactions [2..11], one entry each, with latencies 200, 300, .., 1100. *)
Definition hundreds : list PerformanceEventTiming :=
  (λ k, ev (Z.of_nat k) (100 * Z.of_nat k)) <$> seq 2 10.

(** A page that is restored from the bfcache after interaction 1 and then
    sees ten more interactions. *)
Definition fullAfterRestore : State :=
  Eval vm_compute in
    default init
      (run [Entries 1 [ev 1 100]; BFCacheRestore 1; Entries 11 hundreds] init).

(** ** Tactics *)

(** Reading the fields of a state that is given as a record. *)
Ltac state_fields :=
  cbn [heap longestInteractionList longestInteractionMap prevInteractionCount
       metrics metric report reported] in *.

(** * Properties *)

(** ** Sorting *)

Section sorting.
Context {A : Type} (cmp : A → A → Z).

Lemma insert_by_perm x l : insert_by cmp x l ≡ₚ x :: l.
Proof.
  induction l as [|y l IH]; simpl; [done|].
  destruct (0 <? cmp x y); [|done].
  rewrite IH. apply Permutation_swap.
Qed.

Lemma sort_perm l : sort cmp l ≡ₚ l.
Proof.
  induction l as [|x l IH]; simpl; [done|].
  by rewrite insert_by_perm, IH.
Qed.

Lemma sort_length l : length (sort cmp l) = length l.
Proof. by rewrite sort_perm. Qed.
End sorting.

Lemma insert_byLatencyDesc_sorted x l :
  StronglySorted notShorter l →
  StronglySorted notShorter (insert_by byLatencyDesc x l).
Proof.
  induction 1 as [|y l Hl IH Hy]; simpl.
  - repeat constructor.
  - unfold byLatencyDesc at 1. case_match eqn:Hc.
    + apply Z.ltb_lt in Hc. constructor; [done|].
      rewrite insert_by_perm. constructor; [|done]. unfold notShorter. lia.
    + apply Z.ltb_ge in Hc. constructor; [by constructor|].
      constructor; [unfold notShorter; lia|].
      eapply Forall_impl; [exact Hy|]. unfold notShorter. intros; lia.
Qed.

Lemma sort_byLatencyDesc_sorted l :
  StronglySorted notShorter (sort byLatencyDesc l).
Proof.
  induction l as [|x l IH]; simpl; [constructor|].
  by apply insert_byLatencyDesc_sorted.
Qed.

Lemma StronglySorted_take {A} (R : relation A) n l :
  StronglySorted R l → StronglySorted R (take n l).
Proof.
  intros H. rewrite <-(take_drop n l) in H.
  by apply StronglySorted_app_1_l in H.
Qed.

Lemma StronglySorted_lookup {A} (R : relation A) l i j x y :
  StronglySorted R l → (i < j)%nat → l !! i = Some x → l !! j = Some y → R x y.
Proof.
  intros Hs. revert i j. induction Hs as [|z l Hl IH Hz]; intros i j Hij Hi Hj.
  - done.
  - destruct j as [|j]; [lia|]. simpl in Hj. destruct i as [|i]; simpl in Hi.
    + simplify_eq. rewrite Forall_forall in Hz. apply Hz.
      by eapply list_elem_of_lookup_2.
    + eapply IH; [|done..]. lia.
Qed.

(** ** References and the store *)

Lemma resolve_Some h l objs :
  resolve h l = Some objs ↔ Forall2 (λ r p, p.1 = r ∧ h !! r = Some p.2) l objs.
Proof.
  unfold resolve. rewrite mapM_Some.
  split; intros H; eapply Forall2_impl; try exact H; intros r [r' i]; simpl;
    destruct (h !! r) as [j|]; simpl; try done.
  - intros [= <- <-]. done.
  - intros [<- [= <-]]. done.
  - intros [_ [=]].
Qed.

Lemma resolve_fst h l objs : resolve h l = Some objs → objs.*1 = l.
Proof.
  rewrite resolve_Some. induction 1 as [|r p l objs [Hr _] _ IH]; [done|].
  by rewrite fmap_cons, Hr, IH.
Qed.

Lemma resolve_elem_of h l objs p :
  resolve h l = Some objs → p ∈ objs → h !! p.1 = Some p.2.
Proof.
  rewrite resolve_Some. induction 1 as [|r q l objs [Hr Hq] _ IH]; [by inversion 1|].
  rewrite elem_of_cons. intros [->|Hp]; [by rewrite Hr|by apply IH].
Qed.

Lemma resolve_of_objs h objs :
  (∀ p, p ∈ objs → h !! p.1 = Some p.2) → resolve h (objs.*1) = Some objs.
Proof.
  intros H. apply resolve_Some. induction objs as [|p objs IH]; simpl; constructor.
  - split; [done|]. apply H. by left.
  - apply IH. intros q Hq. apply H. by right.
Qed.

Lemma resolve_total h l :
  (∀ r, r ∈ l → (r < length h)%nat) → is_Some (resolve h l).
Proof.
  intros H. apply mapM_is_Some, Forall_forall. intros r Hr. unfold compose.
  destruct (lookup_lt_is_Some_2 h r (H r Hr)) as [i Hi]. rewrite Hi. by eexists.
Qed.

Lemma resolve_lookup h l objs n r :
  resolve h l = Some objs → l !! n = Some r →
  ∃ i, objs !! n = Some (r, i) ∧ h !! r = Some i.
Proof.
  rewrite resolve_Some. intros H Hn.
  destruct (Forall2_lookup_l _ _ _ _ _ H Hn) as ([r' i] & Hp & Hr & Hi); simpl in *.
  subst. eauto.
Qed.

Lemma closed_init : closed init.
Proof.
  split; simpl.
  - intros r Hr. by apply elem_of_nil in Hr.
  - intros k r Hk. by rewrite lookup_empty in Hk.
  - lia.
  - lia.
  - intros [|n] m r Hm; simpl in Hm; [|done]. by injection Hm as <-.
Qed.

Lemma linked_init : linked init.
Proof.
  split; simpl.
  - apply closed_init.
  - done.
  - constructor.
  - intros r i Hr. by apply elem_of_nil in Hr.
  - intros k r i Hk. by rewrite lookup_empty in Hk.
  - intros r i Hr. by rewrite lookup_nil in Hr.
Qed.

Lemma consistent_init : consistent init.
Proof.
  split; simpl.
  - apply linked_init.
  - lia.
  - intros n1 n2 r1 r2 i1 i2 _ H. done.
Qed.

(** ** [processEntry] keeps the invariants *)

Lemma maxDuration_singleton e : maxDuration (duration e) [e].
Proof.
  split.
  - exists e. split; [by left|done].
  - intros e' He'. apply list_elem_of_singleton in He' as ->. lia.
Qed.

Lemma maxDuration_snoc m es e :
  maxDuration m es → maxDuration (Z.max m (duration e)) (es ++ [e]).
Proof.
  intros [(e0 & He0 & Hm) Hle]. split.
  - destruct (Z.max_spec m (duration e)) as [[_ ->]|[_ ->]].
    + exists e. split; [|done]. apply elem_of_app. right. by left.
    + exists e0. split; [|done]. apply elem_of_app. by left.
  - intros e' [He'|He']%elem_of_app.
    + specialize (Hle _ He'). lia.
    + apply list_elem_of_singleton in He' as ->. lia.
Qed.

Lemma upsert_existing entry s r i :
  longestInteractionMap s !! interactionId entry = Some r →
  heap s !! r = Some i →
  upsert entry s =
    Some {| heap := <[r := mergeEntry i entry]> (heap s);
            longestInteractionList := longestInteractionList s;
            longestInteractionMap := longestInteractionMap s;
            prevInteractionCount := prevInteractionCount s;
            metrics := metrics s;
            metric := metric s;
            report := report s;
            reported := reported s |}.
Proof. intros Hk Hr. unfold upsert. by rewrite Hk, Hr. Qed.

Lemma upsert_new entry s :
  longestInteractionMap s !! interactionId entry = None →
  upsert entry s =
    Some {| heap := heap s ++ [newInteraction entry];
            longestInteractionList := longestInteractionList s ++ [length (heap s)];
            longestInteractionMap :=
              <[interactionId entry := length (heap s)]> (longestInteractionMap s);
            prevInteractionCount := prevInteractionCount s;
            metrics := metrics s;
            metric := metric s;
            report := report s;
            reported := reported s |}.
Proof. intros Hk. unfold upsert. by rewrite Hk. Qed.

Lemma upsert_linked entry s :
  linked s → ∃ s1, upsert entry s = Some s1 ∧ linked s1.
Proof.
  intros [[Hcl Hcm Hcme Hcr Hce] Hrep Hnd Hlm Hmi Hlat].
  destruct (longestInteractionMap s !! interactionId entry) as [r|] eqn:Hk.
  - destruct (lookup_lt_is_Some_2 _ _ (Hcm _ _ Hk)) as [i Hi].
    eexists. split; [by apply upsert_existing|].
    split; [split|..]; simpl; try done.
    + intros r' Hr'. rewrite length_insert. by apply Hcl.
    + intros k r' Hr'. rewrite length_insert. by eapply Hcm.
    + intros n m r' Hn Hm. rewrite length_insert. by eapply Hce.
    + intros r' i' Hr' Hi'. destruct (decide (r' = r)) as [->|Hne].
      * rewrite list_lookup_insert_eq in Hi' by by eapply lookup_lt_Some.
        injection Hi' as <-. simpl. by apply Hlm.
      * rewrite list_lookup_insert_ne in Hi' by done. by apply Hlm.
    + intros k r' i' Hr' Hi'. destruct (decide (r' = r)) as [->|Hne].
      * rewrite list_lookup_insert_eq in Hi' by by eapply lookup_lt_Some.
        injection Hi' as <-. simpl. by eapply Hmi.
      * rewrite list_lookup_insert_ne in Hi' by done. by eapply Hmi.
    + intros r' i' Hi'. destruct (decide (r' = r)) as [->|Hne].
      * rewrite list_lookup_insert_eq in Hi' by by eapply lookup_lt_Some.
        injection Hi' as <-. simpl. apply maxDuration_snoc. by eapply Hlat.
      * rewrite list_lookup_insert_ne in Hi' by done. by eapply Hlat.
  - eexists. split; [by apply upsert_new|].
    split; [split|..]; simpl; try done.
    + intros r' Hr'. rewrite length_app; simpl.
      apply elem_of_app in Hr' as [Hr'|Hr'].
      * apply Hcl in Hr'. lia.
      * apply list_elem_of_singleton in Hr' as ->. lia.
    + intros k r'. rewrite length_app; simpl. rewrite lookup_insert.
      case_decide; [intros [= <-]; lia|]. intros Hr'%Hcm. lia.
    + intros n m r' Hn Hm. rewrite length_app; simpl.
      pose proof (Hce _ _ _ Hn Hm). lia.
    + apply NoDup_app. split; [done|]. split; [|apply NoDup_singleton].
      intros r' Hr' Hn. apply list_elem_of_singleton in Hn as ->.
      apply Hcl in Hr'. lia.
    + intros r' i' Hr' Hi'.
      apply elem_of_app in Hr' as [Hr'|Hr'].
      * rewrite lookup_app_l in Hi' by by apply Hcl.
        pose proof (Hlm _ _ Hr' Hi') as Hm.
        rewrite lookup_insert_ne; [done|]. intros Heq. congruence.
      * apply list_elem_of_singleton in Hr' as ->.
        rewrite lookup_app_r, Nat.sub_diag in Hi' by done.
        injection Hi' as <-. simpl. apply lookup_insert_eq.
    + intros k r' i'. rewrite lookup_insert. case_decide as Hd.
      * intros [= <-]. rewrite lookup_app_r, Nat.sub_diag by done.
        intros [= <-]. by simpl.
      * intros Hr' Hi'. rewrite lookup_app_l in Hi' by by eapply Hcm.
        by eapply Hmi.
    + intros r' i' Hi'. apply lookup_app_Some in Hi' as [Hi'|[_ Hi']].
      * by eapply Hlat.
      * destruct (r' - length (heap s))%nat; [|done].
        injection Hi' as <-. apply maxDuration_singleton.
Qed.

Lemma forget_lookup_Some removed m k r :
  forget removed m !! k = Some r → m !! k = Some r.
Proof.
  unfold forget. revert m. induction removed as [|p removed IH]; intros m; simpl; [done|].
  intros H%IH. by apply lookup_delete_Some in H as [_ H].
Qed.

Lemma forget_lookup_ne removed m k :
  (∀ p, p ∈ removed → Interaction.id p.2 ≠ k) → forget removed m !! k = m !! k.
Proof.
  unfold forget. revert m. induction removed as [|p removed IH]; intros m H; simpl; [done|].
  rewrite IH by (intros q Hq; apply H; by right).
  apply lookup_delete_ne, H. by left.
Qed.

Lemma forget_lookup_eq removed m p :
  p ∈ removed → forget removed m !! Interaction.id p.2 = None.
Proof.
  unfold forget. revert m. induction removed as [|q removed IH]; intros m; [by inversion 1|].
  rewrite elem_of_cons. simpl. intros [->|Hp]; [|by apply IH].
  destruct (foldl _ _ _ !! _) as [r|] eqn:Hr; [|done].
  apply (forget_lookup_Some removed) in Hr. by rewrite lookup_delete_eq in Hr.
Qed.

(** What [sortAndTrim] leaves in the list and in the map, in terms of the
    sorted array of resolved references. *)
Lemma sortAndTrim_Some s objs :
  resolve (heap s) (longestInteractionList s) = Some objs →
  sortAndTrim s =
    Some {| heap := heap s;
            longestInteractionList :=
              (take MAX_INTERACTIONS_TO_CONSIDER (sort byLatencyDesc objs)).*1;
            longestInteractionMap :=
              forget (drop MAX_INTERACTIONS_TO_CONSIDER (sort byLatencyDesc objs))
                     (longestInteractionMap s);
            prevInteractionCount := prevInteractionCount s;
            metrics := metrics s;
            metric := metric s;
            report := report s;
            reported := reported s |}.
Proof. intros H. unfold sortAndTrim. by rewrite H. Qed.

Lemma sortAndTrim_consistent s :
  linked s → ∃ s2, sortAndTrim s = Some s2 ∧ consistent s2.
Proof.
  intros [[Hcl Hcm Hcme Hcr Hce] Hrep Hnd Hlm Hmi Hlat].
  destruct (resolve_total (heap s) (longestInteractionList s) Hcl) as [objs Hres].
  eexists. split; [by apply sortAndTrim_Some|].
  set (sorted := sort byLatencyDesc objs).
  assert (Hperm : sorted ≡ₚ objs) by apply sort_perm.
  assert (Hheap : ∀ p, p ∈ sorted → heap s !! p.1 = Some p.2).
  { intros p Hp. eapply resolve_elem_of; [done|]. by rewrite <-Hperm. }
  assert (Hfst : sorted.*1 ≡ₚ longestInteractionList s).
  { rewrite Hperm. by erewrite resolve_fst. }
  assert (Hin : ∀ p, p ∈ sorted → p.1 ∈ longestInteractionList s).
  { intros p Hp. rewrite <-Hfst. by apply list_elem_of_fmap_2. }
  assert (Hsplit : NoDup ((take MAX_INTERACTIONS_TO_CONSIDER sorted).*1 ++
                          (drop MAX_INTERACTIONS_TO_CONSIDER sorted).*1)).
  { rewrite <-fmap_app, take_drop. by rewrite Hfst. }
  assert (Htake : ∀ r, r ∈ (take MAX_INTERACTIONS_TO_CONSIDER sorted).*1 →
                       ∃ p, p ∈ sorted ∧ p.1 = r).
  { intros r (p & -> & Hp)%list_elem_of_fmap. exists p. split; [|done].
    rewrite <-(take_drop MAX_INTERACTIONS_TO_CONSIDER sorted).
    apply elem_of_app. by left. }
  split; [split; [split|..]|..]; state_fields; try done.
  - intros r (p & Hp & <-)%Htake. eapply lookup_lt_Some. by apply Hheap.
  - intros k r Hr%forget_lookup_Some. by eapply Hcm.
  - by apply NoDup_app in Hsplit as [? _].
  - intros r i Hr Hi. destruct (Htake _ Hr) as (p & Hp & <-).
    rewrite forget_lookup_ne; [by apply Hlm; [apply Hin|]|].
    intros q Hq Hid.
    assert (Hqs : q ∈ sorted).
    { rewrite <-(take_drop MAX_INTERACTIONS_TO_CONSIDER sorted).
      apply elem_of_app. by right. }
    assert (q.1 = p.1) as Heq.
    { pose proof (Hlm _ _ (Hin _ Hqs) (Hheap _ Hqs)) as H1.
      pose proof (Hlm _ _ (Hin _ Hp) Hi) as H2. congruence. }
    apply NoDup_app in Hsplit as (_ & Hdisj & _).
    apply (Hdisj _ Hr). rewrite <-Heq. by apply list_elem_of_fmap_2.
  - intros k r i Hr%forget_lookup_Some. by apply Hmi.
  - rewrite length_fmap, length_take. lia.
  - intros n1 n2 r1 r2 i1 i2 Hn. state_fields.
    rewrite !list_lookup_fmap.
    destruct (take _ sorted !! n1) as [p1|] eqn:H1; [|done].
    destruct (take _ sorted !! n2) as [p2|] eqn:H2; [|done].
    simpl. intros [= <-] [= <-] Hi1 Hi2.
    assert (notShorter p1 p2) as Hle.
    { eapply (StronglySorted_lookup notShorter); [|done..].
      apply StronglySorted_take, sort_byLatencyDesc_sorted. }
    assert (p1 ∈ sorted ∧ p2 ∈ sorted) as [Hp1 Hp2].
    { split; rewrite <-(take_drop MAX_INTERACTIONS_TO_CONSIDER sorted);
        apply elem_of_app; left; by eapply list_elem_of_lookup_2. }
    apply Hheap in Hp1, Hp2. unfold notShorter in Hle. congruence.
Qed.

Lemma possiblyLongest_total entry s : closed s → is_Some (possiblyLongest entry s).
Proof.
  intros Hc. unfold possiblyLongest.
  case_bool_decide; [by eexists|]. case_bool_decide as Hlen; [by eexists|].
  destruct (last (longestInteractionList s)) as [m|] eqn:Hlast.
  - assert (m ∈ longestInteractionList s) as Hm.
    { apply last_Some in Hlast as [l' ->]. apply elem_of_app. right. by left. }
    destruct (lookup_lt_is_Some_2 _ _ (closed_list _ Hc _ Hm)) as [i Hi].
    simpl. rewrite Hi. by eexists.
  - apply last_None in Hlast. rewrite Hlast in Hlen.
    unfold MAX_INTERACTIONS_TO_CONSIDER in Hlen. simpl in Hlen. lia.
Qed.

Lemma processEntry_consistent entry s :
  consistent s → ∃ s', processEntry entry s = Some s' ∧ consistent s'.
Proof.
  intros Hs. unfold processEntry.
  destruct (possiblyLongest_total entry s) as [ok ->];
    [apply Hs|]. simpl.
  destruct ok; [|by eauto].
  destruct (upsert_linked entry s) as (s1 & -> & Hs1); [apply Hs|]. simpl.
  by apply sortAndTrim_consistent.
Qed.

(** ** The callbacks keep the invariants *)

Lemma matchingEntry_total entry s : closed s → is_Some (matchingEntry entry s).
Proof.
  intros Hc. unfold matchingEntry.
  destruct (resolve_total (heap s) (longestInteractionList s)) as [objs ->];
    [apply Hc|]. by eexists.
Qed.

Lemma handleEntry_consistent entry s :
  consistent s → ∃ s', handleEntry entry s = Some s' ∧ consistent s'.
Proof.
  intros Hs. unfold handleEntry.
  assert (∃ s1, (if truthy (interactionId entry) then processEntry entry s else Some s)
                = Some s1 ∧ consistent s1) as (s1 & -> & Hs1).
  { destruct (truthy _); [by apply processEntry_consistent|by eauto]. }
  simpl. destruct (String.eqb _ _); [|by eauto].
  destruct (matchingEntry_total entry s1) as [found ->]; [apply Hs1|]. simpl.
  destruct found; simpl; [by eauto|by apply processEntry_consistent].
Qed.

Lemma forEach_consistent {A} (f : A → State → option State) l s :
  (∀ x s, consistent s → ∃ s', f x s = Some s' ∧ consistent s') →
  consistent s → ∃ s', forEach f l s = Some s' ∧ consistent s'.
Proof.
  intros Hf. revert s. induction l as [|x l IH]; intros s Hs; simpl; [by eauto|].
  destruct (Hf x s Hs) as (s1 & -> & Hs1). simpl. by apply IH.
Qed.

Lemma setMetric_consistent m s :
  (∀ r, Metric.entries m = EntriesOf r → (r < length (heap s))%nat) →
  consistent s → consistent (setMetric m s).
Proof.
  intros Hm [[[Hcl Hcm Hcme Hcr Hce] Hrep Hnd Hlm Hmi Hlat] Hlen Hsort].
  split; [split; [split|..]|..]; unfold setMetric; state_fields; try done.
  - by rewrite length_insert.
  - by rewrite length_insert.
  - intros n m' r [(_ & <- & _)|[_ Hn]]%list_lookup_insert_Some; [apply Hm|].
    by eapply Hce.
Qed.

Lemma callReport_consistent force s :
  consistent s → ∃ s', callReport force s = Some s' ∧ consistent s'.
Proof.
  intros [[[Hcl Hcm Hcme Hcr Hce] Hrep Hnd Hlm Hmi Hlat] Hlen Hsort].
  unfold callReport.
  destruct (lookup_lt_is_Some_2 _ _ Hcr) as [m Hm]. rewrite Hm. simpl.
  assert (is_Some (readArray (heap s) (Metric.entries m))) as [es ->].
  { destruct (Metric.entries m) as [|r] eqn:He; simpl; [by eexists|].
    destruct (lookup_lt_is_Some_2 _ _ (Hce _ _ _ Hm He)) as [i ->]. by eexists. }
  simpl. eexists. split; [done|].
  split; [split; [split|..]|..]; state_fields; done.
Qed.

Lemma index_elem_of {A} (l : list A) i x : index l i = Some x → x ∈ l.
Proof.
  unfold index. destruct (i <? 0); [done|]. apply list_elem_of_lookup_2.
Qed.

Lemma handleEntries_consistent interactionCount entries s :
  consistent s →
  ∃ s', handleEntries interactionCount entries s = Some s' ∧ consistent s'.
Proof.
  intros Hs. unfold handleEntries.
  destruct (forEach_consistent handleEntry entries s handleEntry_consistent Hs)
    as (s1 & -> & Hs1). simpl.
  destruct (estimateP98LongestInteraction _ s1) as [r|] eqn:Hest; [|by eauto].
  apply index_elem_of in Hest.
  pose proof (closed_list _ (linked_closed _ (consistent_linked _ Hs1)) _ Hest) as Hr.
  destruct (lookup_lt_is_Some_2 _ _ Hr) as [inp ->]. simpl.
  destruct (lookup_lt_is_Some_2 _ _
    (closed_metric _ (linked_closed _ (consistent_linked _ Hs1)))) as [m ->]. simpl.
  case_bool_decide; [|by eauto].
  apply callReport_consistent, setMetric_consistent; [|done].
  by intros r' [= <-].
Qed.

Lemma onHidden_consistent interactionCount records s :
  consistent s →
  ∃ s', onHidden interactionCount records s = Some s' ∧ consistent s'.
Proof.
  intros Hs. unfold onHidden.
  destruct (handleEntries_consistent interactionCount records s Hs) as (s1 & -> & Hs1).
  simpl.
  destruct (lookup_lt_is_Some_2 _ _
    (closed_metric _ (linked_closed _ (consistent_linked _ Hs1)))) as [m ->]. simpl.
  apply callReport_consistent. destruct (_ && _); [|done].
  by apply setMetric_consistent.
Qed.

Lemma onBFCacheRestore_consistent interactionCount s :
  consistent s →
  ∃ s', onBFCacheRestore interactionCount s = Some s' ∧ consistent s'.
Proof.
  intros [[[Hcl Hcm Hcme Hcr Hce] Hrep Hnd Hlm Hmi Hlat] Hlen Hsort].
  eexists. split; [done|].
  split; [split; [split|..]|..]; state_fields; try done.
  - intros r Hr. by apply elem_of_nil in Hr.
  - rewrite length_app. simpl. lia.
  - rewrite length_app. simpl. lia.
  - intros n m r [Hn|[_ Hn]]%lookup_app_Some; [by eapply Hce|].
    destruct (n - length (metrics s))%nat; [|done]. by injection Hn as <-.
  - constructor.
  - intros r i Hr. by apply elem_of_nil in Hr.
  - unfold MAX_INTERACTIONS_TO_CONSIDER. simpl. lia.
Qed.

Lemma deliver_consistent n s :
  consistent s → ∃ s', deliver n s = Some s' ∧ consistent s'.
Proof.
  destruct n; simpl.
  - apply handleEntries_consistent.
  - apply onHidden_consistent.
  - apply onBFCacheRestore_consistent.
Qed.

(** Every sequence of notifications runs to the end, and the state it
    ends in satisfies the invariants. *)
Lemma run_consistent ns : ∃ s, run ns init = Some s ∧ consistent s.
Proof. apply forEach_consistent; [apply deliver_consistent|apply consistent_init]. Qed.

Lemma reachable_consistent s : reachable s → consistent s.
Proof.
  intros [ns Hns]. destruct (run_consistent ns) as (s' & Hs' & Hc). congruence.
Qed.

(** * Main results *)

(** ** The estimator *)

Lemma index_nonneg {A} (l : list A) i : 0 ≤ i → index l i = l !! Z.to_nat i.
Proof. intros Hi. unfold index. by rewrite (proj2 (Z.ltb_ge i 0)). Qed.

Lemma index_neg {A} (l : list A) i : i < 0 → index l i = None.
Proof. intros Hi. unfold index. by rewrite (proj2 (Z.ltb_lt i 0)). Qed.

(** C3.  With [L] interactions in the list and [N] interactions counted
    since the last restore, the estimator returns the element of the list
    at index [min (L - 1) (floor (N / 50))] whenever [L > 0] and [N >= 0],
    and that element exists; on an empty list it returns [undefined].
    For [L = 10]: [N] in [0..49] gives index 0, [N] in [50..99] index 1,
    and [N >= 500] index 9. *)
Theorem C3_estimate_index interactionCount s :
  let L := length (longestInteractionList s) in
  let N := getInteractionCountForNavigation interactionCount s in
  let estimate := estimateP98LongestInteraction interactionCount s in
  (L = 0%nat → estimate = None) ∧
  ((0 < L)%nat → 0 ≤ N →
     estimate = longestInteractionList s !! Z.to_nat (Z.min (Z.of_nat L - 1) (N `div` 50)) ∧
     is_Some estimate) ∧
  (L = 10%nat →
     (0 ≤ N ≤ 49 → estimate = longestInteractionList s !! 0%nat) ∧
     (50 ≤ N ≤ 99 → estimate = longestInteractionList s !! 1%nat) ∧
     (500 ≤ N → estimate = longestInteractionList s !! 9%nat)).
Proof.
  intros L N estimate. subst estimate. unfold estimateP98LongestInteraction.
  fold L N. split; [|split].
  - intros HL. apply index_neg. rewrite HL. lia.
  - intros HL HN.
    assert (0 ≤ N `div` 50) by (apply Z.div_pos; lia).
    rewrite index_nonneg by lia. split; [done|].
    apply lookup_lt_is_Some_2. fold L. lia.
  - intros HL. rewrite HL. split; [|split]; intros HN.
    + assert (N `div` 50 = 0) as -> by (apply Z.div_small; lia).
      by rewrite index_nonneg.
    + assert (N `div` 50 = 1) as ->.
      { symmetry. apply (Z.div_unique N 50 1 (N - 50)); lia. }
      by rewrite index_nonneg.
    + assert (10 ≤ N `div` 50) by (apply Z.div_le_lower_bound; lia).
      rewrite index_nonneg by lia. f_equal. lia.
Qed.

Lemma tenInteractions_reachable : reachable tenInteractions.
Proof. exists [Entries 10 (increasing 10)]. vm_compute. reflexivity. Qed.

Lemma C3_estimate_index_witness :
  estimateP98LongestInteraction 5 init = None ∧
  estimateP98LongestInteraction 130 tenInteractions = Some 7%nat ∧
  estimateP98LongestInteraction 30 tenInteractions = Some 9%nat ∧
  estimateP98LongestInteraction 75 tenInteractions = Some 8%nat ∧
  estimateP98LongestInteraction 3000 tenInteractions = Some 0%nat.
Proof.
  split; [|split; [|split; [|split]]].
  - destruct (C3_estimate_index 5 init) as (H & _ & _). apply H. reflexivity.
  - destruct (C3_estimate_index 130 tenInteractions) as (_ & H & _).
    destruct H as [H _]; [simpl; lia|vm_compute; discriminate|].
    rewrite H. reflexivity.
  - destruct (C3_estimate_index 30 tenInteractions) as (_ & _ & H).
    destruct (H eq_refl) as (H1 & _ & _).
    rewrite H1; [reflexivity|]. vm_compute. split; discriminate.
  - destruct (C3_estimate_index 75 tenInteractions) as (_ & _ & H).
    destruct (H eq_refl) as (_ & H1 & _).
    rewrite H1; [reflexivity|]. vm_compute. split; discriminate.
  - destruct (C3_estimate_index 3000 tenInteractions) as (_ & _ & H).
    destruct (H eq_refl) as (_ & _ & H1).
    rewrite H1; [reflexivity|]. vm_compute. discriminate.
Defined.

(** ** Safety of the test in [processEntry] *)

Lemma upsert_closed_list entry s :
  closed s →
  ∃ s1, upsert entry s = Some s1 ∧
        ∀ r, r ∈ longestInteractionList s1 → (r < length (heap s1))%nat.
Proof.
  intros [Hcl Hcm _ _ _].
  destruct (longestInteractionMap s !! interactionId entry) as [r|] eqn:Hk.
  - destruct (lookup_lt_is_Some_2 _ _ (Hcm _ _ Hk)) as [i Hi].
    eexists. split; [by apply upsert_existing|]. state_fields.
    intros r' Hr'. rewrite length_insert. by apply Hcl.
  - eexists. split; [by apply upsert_new|]. state_fields.
    intros r' Hr'. rewrite length_app; simpl.
    apply elem_of_app in Hr' as [Hr'|Hr'].
    + apply Hcl in Hr'. lia.
    + apply list_elem_of_singleton in Hr' as ->. lia.
Qed.

Lemma processEntry_total entry s : closed s → is_Some (processEntry entry s).
Proof.
  intros Hs. unfold processEntry.
  destruct (possiblyLongest_total entry s Hs) as [ok ->]. simpl.
  destruct ok; [|by eexists].
  destruct (upsert_closed_list entry s Hs) as (s1 & -> & Hs1). simpl.
  destruct (resolve_total _ _ Hs1) as [objs Hobjs].
  rewrite (sortAndTrim_Some _ _ Hobjs). by eexists.
Qed.

(** C10.  In a state whose references all point to objects: on an empty
    list, and more generally on a list of fewer than ten interactions,
    the test answers [true] without reading the latency of the minimum;
    when the list has ten or more, the minimum is there to be read; and
    [processEntry] returns a state, it never fails on an absent
    minimum. *)
Theorem C10_minimum_read_is_safe entry s :
  closed s →
  (longestInteractionList s = [] → possiblyLongest entry s = Some true) ∧
  ((length (longestInteractionList s) < MAX_INTERACTIONS_TO_CONSIDER)%nat →
     possiblyLongest entry s = Some true) ∧
  ((MAX_INTERACTIONS_TO_CONSIDER ≤ length (longestInteractionList s))%nat →
     ∃ m i, last (longestInteractionList s) = Some m ∧ heap s !! m = Some i) ∧
  is_Some (possiblyLongest entry s) ∧
  is_Some (processEntry entry s).
Proof.
  intros Hs.
  assert ((length (longestInteractionList s) < MAX_INTERACTIONS_TO_CONSIDER)%nat →
          possiblyLongest entry s = Some true) as Hshort.
  { intros Hlen. unfold possiblyLongest.
    case_bool_decide; [done|]. by rewrite bool_decide_true. }
  split; [|split; [done|split; [|split]]].
  - intros Hnil. apply Hshort. rewrite Hnil.
    unfold MAX_INTERACTIONS_TO_CONSIDER. simpl. lia.
  - intros Hlen.
    destruct (last (longestInteractionList s)) as [m|] eqn:Hlast.
    + assert (m ∈ longestInteractionList s) as Hm.
      { apply last_Some in Hlast as [l' ->]. apply elem_of_app. right. by left. }
      destruct (lookup_lt_is_Some_2 _ _ (closed_list _ Hs _ Hm)) as [i Hi].
      by exists m, i.
    + apply last_None in Hlast. rewrite Hlast in Hlen.
      unfold MAX_INTERACTIONS_TO_CONSIDER in Hlen. simpl in Hlen. lia.
  - by apply possiblyLongest_total.
  - by apply processEntry_total.
Qed.

Lemma C10_minimum_read_is_safe_witness :
  possiblyLongest (ev 1 50) init = Some true ∧
  is_Some (processEntry (ev 1 50) init) ∧
  (∃ m i, last (longestInteractionList tenInteractions) = Some m ∧
          heap tenInteractions !! m = Some i) ∧
  is_Some (processEntry (ev 11 5) tenInteractions).
Proof.
  destruct (C10_minimum_read_is_safe (ev 1 50) init closed_init)
    as (Hnil & _ & _ & _ & Htotal).
  destruct (C10_minimum_read_is_safe (ev 11 5) tenInteractions)
    as (_ & _ & Hfull & _ & Htotal').
  { apply reachable_consistent, tenInteractions_reachable. }
  split; [apply Hnil; reflexivity|]. split; [exact Htotal|].
  split; [apply Hfull; vm_compute; lia|exact Htotal'].
Defined.

(** ** The size and the order of the list *)

(** C4.  Whatever entries are processed, one after the other from the
    start, [processEntry] returns each time, and the list then holds at
    most ten interactions, each of them an object of the store, sorted by
    latency with the longest first; the same holds after every sequence
    of notifications.  Eleven interactions with latencies 10, 20, .., 110
    leave the ten with latencies 110 down to 20, and the id of the one
    with latency 10 is gone from the map. *)
Theorem C4_at_most_ten_sorted :
  (∀ entries, ∃ s,
     forEach processEntry entries init = Some s ∧
     (length (longestInteractionList s) ≤ 10)%nat ∧
     is_Some (tracked s) ∧ sortedByLatency s) ∧
  (∀ ns, ∃ s,
     run ns init = Some s ∧
     (length (longestInteractionList s) ≤ 10)%nat ∧
     is_Some (tracked s) ∧ sortedByLatency s) ∧
  (∃ s,
     forEach processEntry (increasing 11) init = Some s ∧
     tracked s =
       Some [(Some 11, 110); (Some 10, 100); (Some 9, 90); (Some 8, 80);
             (Some 7, 70); (Some 6, 60); (Some 5, 50); (Some 4, 40);
             (Some 3, 30); (Some 2, 20)] ∧
     longestInteractionMap s !! Some 1 = None).
Proof.
  assert (∀ s, consistent s →
            (length (longestInteractionList s) ≤ 10)%nat ∧
            is_Some (tracked s) ∧ sortedByLatency s) as Hinv.
  { intros s Hc. split; [apply Hc|]. split; [|apply Hc].
    unfold tracked.
    destruct (resolve_total (heap s) (longestInteractionList s)) as [objs ->];
      [apply Hc|]. by eexists. }
  split; [|split].
  - intros entries.
    destruct (forEach_consistent processEntry entries init
                processEntry_consistent consistent_init) as (s & Hs & Hc).
    exists s. split; [done|]. by apply Hinv.
  - intros ns. destruct (run_consistent ns) as (s & Hs & Hc).
    exists s. split; [done|]. by apply Hinv.
  - eexists. split; [vm_compute; reflexivity|]. split; vm_compute; reflexivity.
Qed.

(** ** Reporting *)

Lemma forEach_handleEntry_consistent entries s s1 :
  consistent s → forEach handleEntry entries s = Some s1 → consistent s1.
Proof.
  intros Hs H1.
  destruct (forEach_consistent handleEntry entries s handleEntry_consistent Hs)
    as (s1' & H1' & Hc). congruence.
Qed.

Lemma handleEntries_Some_consistent interactionCount entries s s1 :
  consistent s → handleEntries interactionCount entries s = Some s1 → consistent s1.
Proof.
  intros Hs H1.
  destruct (handleEntries_consistent interactionCount entries s Hs)
    as (s1' & H1' & Hc). congruence.
Qed.

(** A call of the reporter right after an assignment to the metric. *)
Lemma callReport_setMetric force m s es :
  consistent s →
  readArray (heap s) (Metric.entries m) = Some es →
  callReport force (setMetric m s) =
    Some {| heap := heap s;
            longestInteractionList := longestInteractionList s;
            longestInteractionMap := longestInteractionMap s;
            prevInteractionCount := prevInteractionCount s;
            metrics := <[metric s := m]> (metrics s);
            metric := metric s;
            report := report s;
            reported := reported s ++
              [{| forceReport := force;
                  boundMetric := metric s;
                  reportedValue := Metric.value m;
                  reportedEntries := es |}] |}.
Proof.
  intros Hs Hes. unfold callReport, setMetric. state_fields.
  rewrite (linked_report _ (consistent_linked _ Hs)).
  rewrite list_lookup_insert_eq
    by apply (closed_metric _ (linked_closed _ (consistent_linked _ Hs))).
  simpl. by rewrite Hes.
Qed.

(** C8.  Once the entries of a batch have been handled (state [s1], with
    [m] the metric object then), [handleEntries] either leaves everything
    as it is and makes no call, which is the case whenever there is no
    estimate or the estimate has the latency the metric already holds; or
    there is an estimate with another latency, the metric object gets its
    latency and its entries array, and one call of the reporter is made
    that sees exactly those.  With an empty list nothing changes. *)
Theorem C8_report_only_on_change interactionCount entries s s1 m :
  consistent s →
  forEach handleEntry entries s = Some s1 →
  metrics s1 !! metric s1 = Some m →
  ∃ s',
    handleEntries interactionCount entries s = Some s' ∧
    ((s' = s1 ∧
      ∀ r inp,
        estimateP98LongestInteraction interactionCount s1 = Some r →
        heap s1 !! r = Some inp →
        Interaction.latency inp = Metric.value m)
     ∨
     (∃ r inp,
        estimateP98LongestInteraction interactionCount s1 = Some r ∧
        heap s1 !! r = Some inp ∧
        Interaction.latency inp ≠ Metric.value m ∧
        metric s' = metric s1 ∧
        metrics s' !! metric s' =
          Some {| Metric.value := Interaction.latency inp;
                  Metric.entries := EntriesOf r |} ∧
        reported s' = reported s1 ++
          [{| forceReport := false;
              boundMetric := metric s1;
              reportedValue := Interaction.latency inp;
              reportedEntries := Interaction.entries inp |}] ∧
        heap s' = heap s1 ∧
        longestInteractionList s' = longestInteractionList s1 ∧
        longestInteractionMap s' = longestInteractionMap s1)) ∧
    (longestInteractionList s1 = [] → s' = s1).
Proof.
  intros Hs H1 Hm.
  pose proof (forEach_handleEntry_consistent _ _ _ Hs H1) as Hs1.
  unfold handleEntries. rewrite H1. simpl.
  destruct (estimateP98LongestInteraction interactionCount s1) as [r|] eqn:Hest.
  - pose proof (index_elem_of _ _ _ Hest) as Hr.
    pose proof (closed_list _ (linked_closed _ (consistent_linked _ Hs1)) _ Hr) as Hlt.
    destruct (lookup_lt_is_Some_2 _ _ Hlt) as [inp Hinp].
    rewrite Hinp, Hm. simpl. case_bool_decide as Hne.
    + erewrite callReport_setMetric; [|done|by simpl; rewrite Hinp].
      eexists. split; [done|]. split.
      * right. exists r, inp. state_fields. repeat split; try done.
        apply list_lookup_insert_eq.
        apply (closed_metric _ (linked_closed _ (consistent_linked _ Hs1))).
      * intros Hnil. rewrite Hnil in Hr. by apply elem_of_nil in Hr.
    + exists s1. split; [done|]. split; [|done]. left. split; [done|].
      intros r' inp' [= <-] Hinp'. congruence.
  - exists s1. split; [done|]. split; [|done]. left. split; [done|].
    intros r inp [=].
Qed.

(** C7.  When the page is hidden and the records taken from the observer
    have been handled (state [s1], metric object [m]): if the metric is
    still unset (negative) and the count of interactions since the last
    restore is positive, the metric object gets the value 0 and an empty
    entries array, and the forced call of the reporter sees value 0 and
    no entries; if the count is not positive the metric object is left
    as it is and the forced call sees the unset value. *)
Theorem C7_zero_when_nothing_observed interactionCount records s s1 m :
  consistent s →
  handleEntries interactionCount records s = Some s1 →
  metrics s1 !! metric s1 = Some m →
  Metric.value m < 0 →
  (getInteractionCountForNavigation interactionCount s1 > 0 →
   ∃ s',
     onHidden interactionCount records s = Some s' ∧
     metric s' = metric s1 ∧
     metrics s' !! metric s' =
       Some {| Metric.value := 0; Metric.entries := NewArray |} ∧
     reported s' = reported s1 ++
       [{| forceReport := true;
           boundMetric := metric s1;
           reportedValue := 0;
           reportedEntries := [] |}]) ∧
  (getInteractionCountForNavigation interactionCount s1 ≤ 0 →
   ∃ s' es,
     onHidden interactionCount records s = Some s' ∧
     metric s' = metric s1 ∧
     metrics s' = metrics s1 ∧
     readArray (heap s1) (Metric.entries m) = Some es ∧
     reported s' = reported s1 ++
       [{| forceReport := true;
           boundMetric := metric s1;
           reportedValue := Metric.value m;
           reportedEntries := es |}]).
Proof.
  intros Hs H1 Hm Hneg.
  pose proof (handleEntries_Some_consistent _ _ _ _ Hs H1) as Hs1.
  pose proof (closed_metric _ (linked_closed _ (consistent_linked _ Hs1))) as Hlt.
  unfold onHidden. rewrite H1. simpl. rewrite Hm. simpl.
  rewrite (bool_decide_true _ Hneg). simpl. split; intros HN.
  - rewrite (bool_decide_true _ HN).
    erewrite callReport_setMetric; [|done..].
    eexists. split; [done|]. state_fields. repeat split; try done.
    by apply list_lookup_insert_eq.
  - rewrite bool_decide_false by lia.
    unfold callReport.
    rewrite (linked_report _ (consistent_linked _ Hs1)), Hm. simpl.
    assert (is_Some (readArray (heap s1) (Metric.entries m))) as [es Hes].
    { destruct (Metric.entries m) as [|r] eqn:He; simpl; [by eexists|].
      destruct (lookup_lt_is_Some_2 _ _
        (closed_entries _ (linked_closed _ (consistent_linked _ Hs1)) _ _ _ Hm He))
        as [i ->]. by eexists. }
    rewrite Hes. simpl. eexists _, es. split; [done|]. state_fields. done.
Qed.

Lemma C7_zero_when_nothing_observed_witness :
  ∃ s', onHidden 3 [] init = Some s' ∧
        reported s' =
          [{| forceReport := true; boundMetric := 0%nat;
              reportedValue := 0; reportedEntries := [] |}].
Proof.
  destruct (C7_zero_when_nothing_observed 3 [] init init initMetric)
    as [H _]; [apply consistent_init|reflexivity|reflexivity|simpl; lia|].
  destruct H as (s' & Hs' & _ & _ & Hrep); [vm_compute; reflexivity|].
  exists s'. split; [exact Hs'|exact Hrep].
Defined.

Lemma C8_report_only_on_change_witness :
  ∃ s', handleEntries 2 [ev 1 300; ev 2 100; ev 1 350] init = Some s' ∧
        reportedValue <$> reported s' = [350].
Proof.
  assert (∃ s1, forEach handleEntry [ev 1 300; ev 2 100; ev 1 350] init = Some s1)
    as [s1 H1] by (eexists; vm_compute; reflexivity).
  destruct (C8_report_only_on_change 2 [ev 1 300; ev 2 100; ev 1 350]
              init s1 initMetric consistent_init H1)
    as (s' & Hs' & Hcase & _).
  { injection H1 as <-. reflexivity. }
  exists s'. split; [exact Hs'|].
  injection H1 as <-.
  destruct Hcase as [[_ Hsame]|(r & inp & Hest & Hinp & _ & _ & _ & Hrep & _)].
  - specialize (Hsame 0%nat _ eq_refl eq_refl). vm_compute in Hsame. discriminate.
  - rewrite Hrep. vm_compute in Hest. injection Hest as <-.
    vm_compute in Hinp. injection Hinp as <-. reflexivity.
Defined.

(** ** Entries of type [first-input] *)

Lemma matchingEntry_spec entry s found :
  matchingEntry entry s = Some found →
  found = true ↔ hasMatchingEntry entry s.
Proof.
  unfold matchingEntry.
  destruct (resolve (heap s) (longestInteractionList s)) as [objs|] eqn:Hres; [|done].
  simpl. intros [= <-]. rewrite existsb_exists. split.
  - intros ([r i] & Hp%list_elem_of_In & (prevEntry & Hprev%list_elem_of_In & Heq)%existsb_exists).
    simpl in *. apply andb_true_iff in Heq as [Hd%bool_decide_eq_true Ht%bool_decide_eq_true].
    exists r, i, prevEntry. split; [|split; [|done]].
    + rewrite <-(resolve_fst _ _ _ Hres). by apply (list_elem_of_fmap_2 fst _ (r, i)).
    + by apply (resolve_elem_of _ _ _ (r, i) Hres).
  - intros (r & i & prevEntry & Hr & Hi & Hprev & Hd & Ht).
    apply list_elem_of_lookup in Hr as [n Hn].
    destruct (resolve_lookup _ _ _ _ _ Hres Hn) as (i' & Hobj & Hi').
    assert (i' = i) as -> by congruence.
    exists (r, i). split; [apply list_elem_of_In; by eapply list_elem_of_lookup_2|].
    simpl. apply existsb_exists. exists prevEntry.
    split; [by apply list_elem_of_In|].
    apply andb_true_iff. by split; apply bool_decide_eq_true.
Qed.

(** C9 as stated fails.  An entry that has no interaction id and is not
    of type [first-input] is left aside by [handleEntry], although no
    stored entry matches it and [processEntry] would have taken it. *)
Lemma C9_counterexample :
  consistent init ∧
  truthy (interactionId noInteraction) = false ∧
  ¬ hasMatchingEntry noInteraction init ∧
  handleEntry noInteraction init = Some init ∧
  processEntry noInteraction init ≠ Some init.
Proof.
  split; [apply consistent_init|]. split; [reflexivity|]. split; [|split].
  - intros (r & i & prevEntry & Hr & _). simpl in Hr. by apply elem_of_nil in Hr.
  - reflexivity.
  - vm_compute. discriminate.
Qed.

(** C9, as the code has it.  The deduplication check is attached to the
    type [first-input], not to the absence of an id.  A [first-input]
    entry without an id is passed to [processEntry] exactly when no entry
    stored in an interaction of the list has its duration and start
    time.  An entry without an id of any other type is not passed to
    [processEntry] at all.  An entry with an id that is not of type
    [first-input] is passed to [processEntry] without any check.  A
    [first-input] entry with an id is passed to [processEntry] and then
    goes through the check as well. *)
Theorem C9_first_input_deduplication entry s :
  consistent s →
  (truthy (interactionId entry) = false → entryType entry = "first-input" →
     (¬ hasMatchingEntry entry s → handleEntry entry s = processEntry entry s) ∧
     (hasMatchingEntry entry s → handleEntry entry s = Some s)) ∧
  (truthy (interactionId entry) = false → entryType entry ≠ "first-input" →
     handleEntry entry s = Some s) ∧
  (truthy (interactionId entry) = true → entryType entry ≠ "first-input" →
     handleEntry entry s = processEntry entry s) ∧
  (truthy (interactionId entry) = true → entryType entry = "first-input" →
     ∃ s1, processEntry entry s = Some s1 ∧
           (¬ hasMatchingEntry entry s1 → handleEntry entry s = processEntry entry s1) ∧
           (hasMatchingEntry entry s1 → handleEntry entry s = Some s1)).
Proof.
  intros Hs. unfold handleEntry. split; [|split; [|split]].
  - intros Hid Hty. rewrite Hid. simpl.
    rewrite (proj2 (String.eqb_eq _ _) Hty).
    destruct (matchingEntry_total entry s) as [found Hfound];
      [apply Hs|]. rewrite Hfound. simpl.
    pose proof (matchingEntry_spec _ _ _ Hfound) as Hspec.
    split; intros Hm; destruct found; try done.
    + destruct Hm. by apply Hspec.
    + apply Hspec in Hm. done.
  - intros Hid Hty. rewrite Hid. simpl.
    by rewrite (proj2 (String.eqb_neq _ _) Hty).
  - intros Hid Hty. rewrite Hid.
    destruct (processEntry_consistent entry s Hs) as (s1 & -> & _). simpl.
    by rewrite (proj2 (String.eqb_neq _ _) Hty).
  - intros Hid Hty. rewrite Hid.
    destruct (processEntry_consistent entry s Hs) as (s1 & -> & Hs1). simpl.
    rewrite (proj2 (String.eqb_eq _ _) Hty).
    exists s1. split; [done|].
    destruct (matchingEntry_total entry s1) as [found Hfound];
      [apply Hs1|]. rewrite Hfound. simpl.
    pose proof (matchingEntry_spec _ _ _ Hfound) as Hspec.
    split; intros Hm; destruct found; try done.
    + destruct Hm. by apply Hspec.
    + apply Hspec in Hm. done.
Qed.

Lemma afterFirstEvent_reachable : reachable afterFirstEvent.
Proof. exists [Entries 1 [firstEvent]]. vm_compute. reflexivity. Qed.

Lemma C9_first_input_deduplication_witness :
  handleEntry (firstInput None 48 5) afterFirstEvent = Some afterFirstEvent ∧
  handleEntry (firstInput None 56 5) afterFirstEvent =
    processEntry (firstInput None 56 5) afterFirstEvent ∧
  handleEntry noInteraction afterFirstEvent = Some afterFirstEvent ∧
  handleEntry (ev 2 64) afterFirstEvent = processEntry (ev 2 64) afterFirstEvent.
Proof.
  pose proof (reachable_consistent _ afterFirstEvent_reachable) as Hc.
  split; [|split; [|split]].
  - destruct (C9_first_input_deduplication (firstInput None 48 5) afterFirstEvent Hc)
      as (H & _). destruct (H eq_refl eq_refl) as [_ Hyes]. apply Hyes.
    exists 0%nat, {| Interaction.id := Some 1; Interaction.latency := 48;
                     Interaction.entries := [firstEvent] |}, firstEvent.
    split; [by left|]. split; [reflexivity|]. split; [by left|]. split; reflexivity.
  - destruct (C9_first_input_deduplication (firstInput None 56 5) afterFirstEvent Hc)
      as (H & _). destruct (H eq_refl eq_refl) as [Hno _]. apply Hno.
    intros (r & i & prevEntry & Hr & Hi & Hprev & Hd & _).
    apply list_elem_of_singleton in Hr as ->. injection Hi as <-.
    apply list_elem_of_singleton in Hprev as ->. discriminate Hd.
  - destruct (C9_first_input_deduplication noInteraction afterFirstEvent Hc)
      as (_ & H & _). apply H; [reflexivity|discriminate].
  - destruct (C9_first_input_deduplication (ev 2 64) afterFirstEvent Hc)
      as (_ & _ & H & _). apply H; [reflexivity|discriminate].
Defined.

(** ** What [processEntry] does *)

Lemma possiblyLongest_spec entry s ok :
  possiblyLongest entry s = Some ok → ok = true ↔ acceptable entry s.
Proof.
  unfold possiblyLongest, acceptable.
  case_bool_decide as Hex; [intros [= <-]; by split; [left|]|].
  case_bool_decide as Hlen; [intros [= <-]; by split; [right; left|]|].
  destruct (last (longestInteractionList s)) as [m|] eqn:Hlast; [|done]. simpl.
  destruct (heap s !! m) as [i|] eqn:Hi; [|done]. simpl.
  intros [= <-]. rewrite bool_decide_eq_true. split.
  - intros Hd. right. right. by exists m, i.
  - intros [?|[?|(m' & i' & [= <-] & Hi' & Hd)]]; [done..|]. congruence.
Qed.

Lemma processEntry_rejected entry s :
  closed s → ¬ acceptable entry s → processEntry entry s = Some s.
Proof.
  intros Hs Hno. unfold processEntry.
  destruct (possiblyLongest_total entry s Hs) as [ok Hok]. rewrite Hok. simpl.
  destruct ok; [|done]. destruct Hno. by apply (possiblyLongest_spec _ _ _ Hok).
Qed.

Lemma processEntry_accepted entry s :
  acceptable entry s → closed s →
  processEntry entry s = upsert entry s ≫= sortAndTrim.
Proof.
  intros Hyes Hs. unfold processEntry.
  destruct (possiblyLongest_total entry s Hs) as [ok Hok]. rewrite Hok. simpl.
  destruct ok; [done|]. apply (possiblyLongest_spec _ _ _ Hok) in Hyes. done.
Qed.

(** With at most ten interactions in the list nothing is removed. *)
Lemma sortAndTrim_short s objs :
  (length (longestInteractionList s) ≤ MAX_INTERACTIONS_TO_CONSIDER)%nat →
  resolve (heap s) (longestInteractionList s) = Some objs →
  sortAndTrim s =
    Some {| heap := heap s;
            longestInteractionList := (sort byLatencyDesc objs).*1;
            longestInteractionMap := longestInteractionMap s;
            prevInteractionCount := prevInteractionCount s;
            metrics := metrics s;
            metric := metric s;
            report := report s;
            reported := reported s |}.
Proof.
  intros Hlen Hres. rewrite (sortAndTrim_Some _ _ Hres).
  assert (length (sort byLatencyDesc objs) ≤ MAX_INTERACTIONS_TO_CONSIDER)%nat as Hle.
  { rewrite sort_length, <-(length_fmap fst), (resolve_fst _ _ _ Hres). done. }
  by rewrite take_ge, drop_ge by done.
Qed.

Lemma sort_fst_perm h l objs :
  resolve h l = Some objs → (sort byLatencyDesc objs).*1 ≡ₚ l.
Proof. intros Hres. by rewrite sort_perm, (resolve_fst _ _ _ Hres). Qed.

Lemma upsert_cases entry s s1 :
  upsert entry s = Some s1 →
  (∃ r i,
     longestInteractionMap s !! interactionId entry = Some r ∧
     heap s !! r = Some i ∧
     heap s1 = <[r := mergeEntry i entry]> (heap s) ∧
     longestInteractionList s1 = longestInteractionList s ∧
     longestInteractionMap s1 = longestInteractionMap s) ∨
  (longestInteractionMap s !! interactionId entry = None ∧
   heap s1 = heap s ++ [newInteraction entry] ∧
   longestInteractionList s1 = longestInteractionList s ++ [length (heap s)] ∧
   longestInteractionMap s1 =
     <[interactionId entry := length (heap s)]> (longestInteractionMap s)).
Proof.
  unfold upsert.
  destruct (longestInteractionMap s !! interactionId entry) as [r|] eqn:Hk.
  - destruct (heap s !! r) as [i|] eqn:Hi; [|done]. simpl.
    intros [= <-]. left. by exists r, i.
  - intros [= <-]. by right.
Qed.

Lemma sortAndTrim_cases s s' :
  sortAndTrim s = Some s' →
  heap s' = heap s ∧
  (∀ k r, longestInteractionMap s' !! k = Some r → longestInteractionMap s !! k = Some r).
Proof.
  unfold sortAndTrim.
  destruct (resolve (heap s) (longestInteractionList s)) as [objs|]; [|done].
  simpl. intros [= <-]. split; [done|]. state_fields.
  intros k r. apply forget_lookup_Some.
Qed.

(** The store after [processEntry]: untouched, or one object merged with
    the entry, or one object added for it. *)
Lemma processEntry_heap_cases entry s s' :
  processEntry entry s = Some s' →
  heap s' = heap s ∨
  (∃ r i,
     longestInteractionMap s !! interactionId entry = Some r ∧
     heap s !! r = Some i ∧
     heap s' = <[r := mergeEntry i entry]> (heap s)) ∨
  (longestInteractionMap s !! interactionId entry = None ∧
   heap s' = heap s ++ [newInteraction entry]).
Proof.
  unfold processEntry.
  destruct (possiblyLongest entry s) as [[|]|]; simpl; [|intros [= <-]; by left|done].
  destruct (upsert entry s) as [s1|] eqn:H1; [|done]. simpl.
  intros [Hh _]%sortAndTrim_cases. rewrite Hh.
  destruct (upsert_cases _ _ _ H1) as [(r & i & ? & ? & ? & _)|(? & ? & _)].
  - right. left. by exists r, i.
  - right. by right.
Qed.

(** A reference the map holds after [processEntry] was already there
    under the same id, unless the object is the one just made. *)
Lemma processEntry_map_old entry s s' k r :
  processEntry entry s = Some s' →
  longestInteractionMap s' !! k = Some r → (r < length (heap s))%nat →
  longestInteractionMap s !! k = Some r.
Proof.
  unfold processEntry.
  destruct (possiblyLongest entry s) as [[|]|]; simpl; [|by intros [= <-]|done].
  destruct (upsert entry s) as [s1|] eqn:H1; [|done]. simpl.
  intros [_ Hm]%sortAndTrim_cases Hk%Hm Hr.
  destruct (upsert_cases _ _ _ H1) as [(_ & _ & _ & _ & _ & _ & Hmap)|(_ & _ & _ & Hmap)];
    rewrite Hmap in Hk; [done|].
  apply lookup_insert_Some in Hk as [[_ <-]|[_ Hk]]; [lia|done].
Qed.

Lemma processEntry_heap_length entry s s' :
  processEntry entry s = Some s' → (length (heap s) ≤ length (heap s'))%nat.
Proof.
  intros [->|[(r & i & _ & _ & ->)|(_ & ->)]]%processEntry_heap_cases.
  - done.
  - by rewrite length_insert.
  - rewrite length_app. lia.
Qed.

(** An object only grows: entries are added at the end and the latency
    does not go down. *)
Lemma processEntry_object_grows entry s s' r i :
  processEntry entry s = Some s' → heap s !! r = Some i →
  ∃ i', heap s' !! r = Some i' ∧
        Interaction.id i' = Interaction.id i ∧
        Interaction.latency i ≤ Interaction.latency i' ∧
        Interaction.entries i `prefix_of` Interaction.entries i'.
Proof.
  intros [->|[(r' & i0 & _ & Hi0 & ->)|(_ & ->)]]%processEntry_heap_cases Hi.
  - by exists i.
  - destruct (decide (r = r')) as [->|Hne].
    + exists (mergeEntry i0 entry).
      rewrite list_lookup_insert_eq by by eapply lookup_lt_Some.
      assert (i0 = i) as -> by congruence. simpl.
      repeat split; [lia|]. by apply prefix_app_r.
    + exists i. by rewrite list_lookup_insert_ne.
  - exists i. rewrite lookup_app_l by by eapply lookup_lt_Some. done.
Qed.

(** An entry whose id is in the map: the object is updated in place, the
    list is sorted again, nothing leaves the list or the map. *)
Lemma processEntry_existing entry s r i :
  consistent s →
  longestInteractionMap s !! interactionId entry = Some r →
  heap s !! r = Some i →
  ∃ l, l ≡ₚ longestInteractionList s ∧
       processEntry entry s =
         Some {| heap := <[r := mergeEntry i entry]> (heap s);
                 longestInteractionList := l;
                 longestInteractionMap := longestInteractionMap s;
                 prevInteractionCount := prevInteractionCount s;
                 metrics := metrics s;
                 metric := metric s;
                 report := report s;
                 reported := reported s |}.
Proof.
  intros Hs Hk Hi.
  rewrite processEntry_accepted; [|left; by eexists|apply Hs].
  rewrite (upsert_existing _ _ _ _ Hk Hi). simpl.
  destruct (upsert_linked entry s (consistent_linked _ Hs)) as (s1 & H1 & Hl1).
  rewrite (upsert_existing _ _ _ _ Hk Hi) in H1. injection H1 as <-.
  destruct (resolve_total _ _ (closed_list _ (linked_closed _ Hl1))) as [objs Hres].
  state_fields.
  exists (sort byLatencyDesc objs).*1. split; [by eapply sort_fst_perm|].
  rewrite (sortAndTrim_short _ objs); [done| |done].
  state_fields. apply Hs.
Qed.

(** An entry that starts an interaction and is taken: the new object is
    in the list and in the map afterwards. *)
Lemma processEntry_new entry s :
  consistent s →
  longestInteractionMap s !! interactionId entry = None →
  acceptable entry s →
  ∃ s', processEntry entry s = Some s' ∧
        consistent s' ∧
        heap s' = heap s ++ [newInteraction entry] ∧
        length (heap s) ∈ longestInteractionList s' ∧
        longestInteractionMap s' !! interactionId entry = Some (length (heap s)).
Proof.
  intros Hs Hk Hyes.
  rewrite processEntry_accepted; [|done|apply Hs].
  destruct (upsert_linked entry s (consistent_linked _ Hs)) as (s1 & H1 & Hl1).
  rewrite H1. simpl. rewrite (upsert_new _ _ Hk) in H1. injection H1 as H1.
  destruct (sortAndTrim_consistent s1 Hl1) as (s' & H' & Hs').
  exists s'. split; [done|]. split; [done|].
  destruct (resolve_total _ _ (closed_list _ (linked_closed _ Hl1))) as [objs Hres].
  rewrite (sortAndTrim_Some _ _ Hres) in H'. injection H' as H'.
  set (n := length (heap s)) in *.
  set (sorted := sort byLatencyDesc objs) in *.
  assert (Hheap1 : heap s1 = heap s ++ [newInteraction entry]) by by rewrite <-H1.
  assert (Hlist1 : longestInteractionList s1 = longestInteractionList s ++ [n])
    by by rewrite <-H1.
  assert (Hnew : (n, newInteraction entry) ∈ sorted).
  { unfold sorted. rewrite sort_perm.
    destruct (resolve_lookup _ _ _ (length (longestInteractionList s)) n Hres)
      as (i & Hobj & Hi).
    { rewrite Hlist1. by rewrite lookup_app_r, Nat.sub_diag. }
    rewrite Hheap1, lookup_app_r, Nat.sub_diag in Hi by done.
    injection Hi as <-. by eapply list_elem_of_lookup_2. }
  assert (Hlen : length sorted = S (length (longestInteractionList s))).
  { unfold sorted. rewrite sort_length, <-(length_fmap fst), (resolve_fst _ _ _ Hres).
    rewrite Hlist1, length_app. simpl. lia. }
  assert (Hkept : (n, newInteraction entry) ∈ take MAX_INTERACTIONS_TO_CONSIDER sorted).
  { destruct (decide (length (longestInteractionList s) < MAX_INTERACTIONS_TO_CONSIDER)%nat)
      as [Hshort|Hfull].
    { rewrite take_ge; [done|]. lia. }
    destruct Hyes as [[? Hex]|[?|(m & i & Hlast & Hi & Hd)]]; [congruence|done|].
    rewrite <-(take_drop MAX_INTERACTIONS_TO_CONSIDER sorted) in Hnew.
    apply elem_of_app in Hnew as [?|Hdrop]; [done|]. exfalso.
    assert (Hm : (m, i) ∈ sorted).
    { unfold sorted. rewrite sort_perm.
      apply last_Some in Hlast as [l' Hl'].
      destruct (resolve_lookup _ _ _ (length l') m Hres) as (i' & Hobj & Hi').
      { rewrite Hlist1, Hl', <-(assoc_L (++)), lookup_app_r, Nat.sub_diag by done.
        done. }
      rewrite Hheap1, lookup_app_l in Hi' by by eapply lookup_lt_Some.
      assert (i' = i) as -> by congruence. by eapply list_elem_of_lookup_2. }
    assert (Hone : length (drop MAX_INTERACTIONS_TO_CONSIDER sorted) = 1%nat).
    { rewrite length_drop, Hlen.
      pose proof (consistent_length _ Hs). lia. }
    destruct (drop MAX_INTERACTIONS_TO_CONSIDER sorted) as [|q [|??]] eqn:Hq;
      simpl in Hone; try lia.
    apply list_elem_of_singleton in Hdrop as <-.
    rewrite <-(take_drop MAX_INTERACTIONS_TO_CONSIDER sorted), Hq in Hm.
    apply elem_of_app in Hm as [Hm|Hm].
    - pose proof (sort_byLatencyDesc_sorted objs) as Hsorted. fold sorted in Hsorted.
      rewrite <-(take_drop MAX_INTERACTIONS_TO_CONSIDER sorted), Hq in Hsorted.
      pose proof (StronglySorted_app_1_elem_of _ _ _ _ _ Hsorted Hm
                    (list_elem_of_here _ _)) as Hle.
      unfold notShorter in Hle. simpl in Hle. lia.
    - apply list_elem_of_singleton in Hm. injection Hm as Hm _.
      pose proof (lookup_lt_Some _ _ _ Hi). lia. }
  assert (Hin : n ∈ longestInteractionList s').
  { rewrite <-H'. state_fields. apply (list_elem_of_fmap_2 fst _ _ Hkept). }
  assert (Hh' : heap s' = heap s ++ [newInteraction entry]).
  { rewrite <-H'. state_fields. done. }
  split; [done|]. split; [done|].
  apply (linked_list_map _ (consistent_linked _ Hs') n (newInteraction entry) Hin).
  rewrite Hh'. by rewrite lookup_app_r, Nat.sub_diag.
Qed.

Lemma mergeEntry_neq i entry : mergeEntry i entry ≠ i.
Proof.
  intros Heq. apply (f_equal (λ x, length (Interaction.entries x))) in Heq.
  simpl in Heq. rewrite length_app in Heq. simpl in Heq. lia.
Qed.

(** The test of [processEntry] as the code makes it, on the map.  In a
    consistent state [processEntry] returns, and it changes the state
    exactly when the id of the entry is in the map, or the list has
    fewer than ten interactions, or the duration of the entry exceeds the
    latency of the last interaction of the list.  In the first case the
    object the map holds for the id is updated in place (entry appended,
    latency raised to the maximum) and stays in the map; otherwise the
    object made for the entry is in the map and in the list afterwards.
    In every other case the state is left as it is. *)
Theorem processEntry_accepted_iff entry s :
  consistent s →
  ∃ s',
    processEntry entry s = Some s' ∧
    (s' ≠ s ↔ acceptable entry s) ∧
    (¬ acceptable entry s → s' = s) ∧
    (∀ r i,
       longestInteractionMap s !! interactionId entry = Some r →
       heap s !! r = Some i →
       heap s' !! r = Some (mergeEntry i entry) ∧
       longestInteractionMap s' = longestInteractionMap s ∧
       longestInteractionList s' ≡ₚ longestInteractionList s) ∧
    (longestInteractionMap s !! interactionId entry = None →
     acceptable entry s →
       heap s' !! length (heap s) = Some (newInteraction entry) ∧
       longestInteractionMap s' !! interactionId entry = Some (length (heap s)) ∧
       length (heap s) ∈ longestInteractionList s').
Proof.
  intros Hs.
  pose proof (linked_closed _ (consistent_linked _ Hs)) as Hc.
  destruct (possiblyLongest_total entry s Hc) as [ok Hok].
  pose proof (possiblyLongest_spec _ _ _ Hok) as Hspec.
  destruct ok.
  - assert (acceptable entry s) as Hyes by by apply Hspec.
    destruct (longestInteractionMap s !! interactionId entry) as [r|] eqn:Hk.
    + destruct (lookup_lt_is_Some_2 _ _ (closed_map _ Hc _ _ Hk)) as [i Hi].
      destruct (processEntry_existing entry s r i Hs Hk Hi) as (l & Hl & Hp).
      eexists. split; [exact Hp|]. state_fields.
      assert (Hr : <[r := mergeEntry i entry]> (heap s) !! r = Some (mergeEntry i entry)).
      { apply list_lookup_insert_eq. by eapply lookup_lt_Some. }
      split; [|split; [done|split; [|done]]].
      * split; [done|]. intros _ Heq.
        apply (f_equal (λ x, heap x !! r)) in Heq. state_fields.
        rewrite Hr, Hi in Heq. injection Heq. apply mergeEntry_neq.
      * intros r' i' [= <-] Hi'. assert (i' = i) as -> by congruence. done.
    + destruct (processEntry_new entry s Hs Hk Hyes) as (s' & Hp & _ & Hh & Hin & Hm).
      exists s'. split; [done|]. split; [|split; [done|split; [done|]]].
      * split; [done|]. intros _ Heq. rewrite Heq in Hh.
        apply (f_equal length) in Hh. rewrite length_app in Hh. simpl in Hh. lia.
      * intros _ _. split; [|done]. rewrite Hh.
        by rewrite lookup_app_r, Nat.sub_diag.
  - assert (¬ acceptable entry s) as Hno by (intros H%Hspec; done).
    exists s. split; [by apply processEntry_rejected|].
    split; [|split; [done|split]].
    + split; [done|]. intros H. by destruct Hno.
    + intros r i Hk. destruct Hno. left. by eexists.
    + intros _ H. by destruct Hno.
Qed.

Lemma processEntry_accepted_iff_witness :
  (∃ s', processEntry (ev 11 5) tenInteractions = Some s' ∧ s' = tenInteractions) ∧
  (∃ s', processEntry (ev 11 15) tenInteractions = Some s' ∧
         longestInteractionMap s' !! Some 11 = Some 10%nat) ∧
  (∃ s', processEntry (ev 1 5) tenInteractions = Some s' ∧
         Interaction.entries <$> heap s' !! 0%nat = Some [ev 1 10; ev 1 5]).
Proof.
  pose proof (reachable_consistent _ tenInteractions_reachable) as Hc.
  split; [|split].
  - destruct (processEntry_accepted_iff (ev 11 5) tenInteractions Hc)
      as (s' & Hp & _ & Hno & _).
    exists s'. split; [exact Hp|]. apply Hno.
    intros [[r Hr]|[Hlen|(m & i & Hlast & Hi & Hd)]].
    + vm_compute in Hr. discriminate.
    + vm_compute in Hlen. lia.
    + vm_compute in Hlast. injection Hlast as <-.
      vm_compute in Hi. injection Hi as <-. simpl in Hd. lia.
  - destruct (processEntry_accepted_iff (ev 11 15) tenInteractions Hc)
      as (s' & Hp & _ & _ & _ & Hnew).
    exists s'. split; [exact Hp|].
    destruct Hnew as (_ & Hm & _); [reflexivity| |exact Hm].
    right. right. exists 0%nat, {| Interaction.id := Some 1; Interaction.latency := 10;
                                  Interaction.entries := [ev 1 10] |}.
    split; [reflexivity|]. split; [reflexivity|]. simpl. lia.
  - destruct (processEntry_accepted_iff (ev 1 5) tenInteractions Hc)
      as (s' & Hp & _ & _ & Hex & _).
    exists s'. split; [exact Hp|].
    destruct (Hex 0%nat {| Interaction.id := Some 1; Interaction.latency := 10;
                           Interaction.entries := [ev 1 10] |}) as (Hh & _);
      [reflexivity|reflexivity|].
    rewrite Hh. reflexivity.
Defined.

(** ** Merging the entries of one interaction *)

Lemma forEach_processEntry_heap_length entries s s' :
  forEach processEntry entries s = Some s' → (length (heap s) ≤ length (heap s'))%nat.
Proof.
  revert s. induction entries as [|e entries IH]; intros s; simpl.
  - by intros [= <-].
  - destruct (processEntry e s) as [sm|] eqn:He; [|done]. simpl.
    intros Hs'%IH. apply processEntry_heap_length in He. lia.
Qed.

Lemma forEach_processEntry_map_old entries s s' k r :
  forEach processEntry entries s = Some s' →
  longestInteractionMap s' !! k = Some r → (r < length (heap s))%nat →
  longestInteractionMap s !! k = Some r.
Proof.
  revert s. induction entries as [|e entries IH]; intros s; simpl.
  - by intros [= <-].
  - destruct (processEntry e s) as [sm|] eqn:He; [|done]. simpl.
    intros Hs' Hk Hr. eapply processEntry_map_old; [done| |done].
    apply IH; [done..|]. apply processEntry_heap_length in He. lia.
Qed.

Lemma forEach_processEntry_object_grows entries s s' r i :
  forEach processEntry entries s = Some s' → heap s !! r = Some i →
  ∃ i', heap s' !! r = Some i' ∧
        Interaction.id i' = Interaction.id i ∧
        Interaction.latency i ≤ Interaction.latency i' ∧
        Interaction.entries i `prefix_of` Interaction.entries i'.
Proof.
  revert s i. induction entries as [|e entries IH]; intros s i; simpl.
  - intros [= <-] Hi. by exists i.
  - destruct (processEntry e s) as [sm|] eqn:He; [|done]. simpl.
    intros Hs' Hi.
    destruct (processEntry_object_grows _ _ _ _ _ He Hi) as (im & Him & Hid & Hlat & Hpre).
    destruct (IH _ _ Hs' Him) as (i' & Hi' & Hid' & Hlat' & Hpre').
    exists i'. split; [done|]. split; [congruence|]. split; [lia|].
    by etrans.
Qed.

(** What one call does to the object the map holds under an id [k]. *)
Lemma processEntry_tracked_object entry s sm k r v :
  consistent s →
  longestInteractionMap s !! k = Some r → heap s !! r = Some v →
  processEntry entry s = Some sm →
  heap sm !! r =
    Some (if decide (interactionId entry = k) then mergeEntry v entry else v).
Proof.
  intros Hs Hk Hv He. case_decide as Hid.
  - subst k. destruct (processEntry_existing entry s r v Hs Hk Hv) as (l & _ & Hp).
    rewrite Hp in He. injection He as <-. state_fields.
    apply list_lookup_insert_eq. by eapply lookup_lt_Some.
  - destruct (processEntry_heap_cases _ _ _ He)
      as [->|[(r' & i' & Hk' & Hi' & ->)|(_ & ->)]].
    + done.
    + rewrite list_lookup_insert_ne; [done|]. intros ->.
      pose proof (linked_map_id _ (consistent_linked _ Hs) _ _ _ Hk Hv).
      pose proof (linked_map_id _ (consistent_linked _ Hs) _ _ _ Hk' Hi').
      simplify_eq.
    + rewrite lookup_app_l; [done|]. by eapply lookup_lt_Some.
Qed.

(** As long as the map holds the same object under an id, the object has
    collected, in their order, exactly the entries with that id. *)
Lemma forEach_processEntry_tracked_object entries s s' k r v :
  consistent s →
  longestInteractionMap s !! k = Some r → heap s !! r = Some v →
  forEach processEntry entries s = Some s' →
  longestInteractionMap s' !! k = Some r →
  ∃ i, heap s' !! r = Some i ∧
       Interaction.id i = Interaction.id v ∧
       Interaction.entries i =
         Interaction.entries v ++ filter (λ e, interactionId e = k) entries.
Proof.
  revert s v. induction entries as [|e entries IH]; intros s v Hs Hk Hv; simpl.
  - intros [= <-] _. exists v. by rewrite app_nil_r.
  - destruct (processEntry e s) as [sm|] eqn:He; [|done]. simpl. intros Hs' Hk'.
    assert (consistent sm) as Hsm.
    { destruct (processEntry_consistent e s Hs) as (sm' & He' & Hc). congruence. }
    assert (longestInteractionMap sm !! k = Some r) as Hkm.
    { eapply forEach_processEntry_map_old; [done..|].
      apply processEntry_heap_length in He.
      pose proof (lookup_lt_Some _ _ _ Hv). lia. }
    pose proof (processEntry_tracked_object _ _ _ _ _ _ Hs Hk Hv He) as Hvm.
    destruct (IH _ _ Hsm Hkm Hvm Hs' Hk') as (i & Hi & Hid & Hentries).
    exists i. split; [done|]. case_decide as Hd.
    + rewrite filter_cons_True by done. simpl in *.
      split; [done|]. by rewrite Hentries, <-(assoc_L (++)).
    + rewrite filter_cons_False by done. done.
Qed.

(** C6.  Let [first] start an interaction (its id is not in the map, and
    the call puts object [r] into the map under that id), and let any
    entries [rest] be processed afterwards.  As long as the map still
    holds [r] under that id, the entries of [r] are [first] followed by
    exactly the entries of [rest] with that id, in the order they came,
    and the latency of [r] is the maximum of their durations.  Over the
    same calls no object ever loses an entry or lowers its latency. *)
Theorem C6_merged_interaction first rest s s1 s2 r :
  consistent s →
  longestInteractionMap s !! interactionId first = None →
  processEntry first s = Some s1 →
  longestInteractionMap s1 !! interactionId first = Some r →
  forEach processEntry rest s1 = Some s2 →
  longestInteractionMap s2 !! interactionId first = Some r →
  (∃ i, heap s2 !! r = Some i ∧
        Interaction.id i = interactionId first ∧
        Interaction.entries i =
          first :: filter (λ e, interactionId e = interactionId first) rest ∧
        maxDuration (Interaction.latency i) (Interaction.entries i)) ∧
  (∀ r0 i1, heap s1 !! r0 = Some i1 →
     ∃ i2, heap s2 !! r0 = Some i2 ∧
           Interaction.latency i1 ≤ Interaction.latency i2 ∧
           Interaction.entries i1 `prefix_of` Interaction.entries i2).
Proof.
  intros Hs Hk H1 Hk1 H2 Hk2.
  assert (consistent s1) as Hs1.
  { destruct (processEntry_consistent first s Hs) as (s1' & H1' & Hc). congruence. }
  assert (consistent s2) as Hs2.
  { destruct (forEach_consistent processEntry rest s1 processEntry_consistent Hs1)
      as (s2' & H2' & Hc). congruence. }
  assert (heap s1 !! r = Some (newInteraction first)) as Hr.
  { assert (¬ (r < length (heap s))%nat) as Hge.
    { intros Hlt. pose proof (processEntry_map_old _ _ _ _ _ H1 Hk1 Hlt). congruence. }
    pose proof (closed_map _ (linked_closed _ (consistent_linked _ Hs1)) _ _ Hk1) as Hlt.
    destruct (processEntry_heap_cases _ _ _ H1)
      as [Hh|[(r' & i' & Hk' & _)|(_ & Hh)]]; [|congruence|].
    - rewrite Hh in Hlt. lia.
    - rewrite Hh in Hlt |- *. rewrite length_app in Hlt. simpl in Hlt.
      assert (r = length (heap s)) as -> by lia.
      by rewrite lookup_app_r, Nat.sub_diag. }
  split.
  - destruct (forEach_processEntry_tracked_object _ _ _ _ _ _ Hs1 Hk1 Hr H2 Hk2)
      as (i & Hi & Hid & Hentries).
    exists i. split; [done|]. split; [done|]. split; [done|].
    by apply (linked_latency _ (consistent_linked _ Hs2) r).
  - intros r0 i1 Hi1.
    destruct (forEach_processEntry_object_grows _ _ _ _ _ H2 Hi1)
      as (i2 & Hi2 & _ & Hlat & Hpre).
    by exists i2.
Qed.

Lemma C6_merged_interaction_witness :
  ∃ i, heap afterThreeFragments !! 0%nat = Some i ∧
       Interaction.entries i = [ev 1 300; ev 1 350; ev 1 200] ∧
       maxDuration (Interaction.latency i) [ev 1 300; ev 1 350; ev 1 200].
Proof.
  destruct (C6_merged_interaction (ev 1 300) threeFragments
              init afterFirstFragment afterThreeFragments 0%nat)
    as [(i & Hi & _ & Hentries & Hmax) _].
  - apply consistent_init.
  - reflexivity.
  - vm_compute. reflexivity.
  - vm_compute. reflexivity.
  - vm_compute. reflexivity.
  - vm_compute. reflexivity.
  - exists i. split; [exact Hi|]. split; [exact Hentries|].
    rewrite Hentries in Hmax. exact Hmax.
Defined.

(** ** Restores from the bfcache *)

(** What the restore callback does, in every state: the list is emptied,
    the count of the host becomes the baseline, a new metric object
    replaces the old one and the reporter is bound to it; neither the map
    nor the objects are touched. *)
Lemma onBFCacheRestore_resets interactionCount s :
  ∃ s',
    onBFCacheRestore interactionCount s = Some s' ∧
    longestInteractionList s' = [] ∧
    prevInteractionCount s' = interactionCount ∧
    getInteractionCountForNavigation interactionCount s' = 0 ∧
    metric s' = length (metrics s) ∧
    metrics s' !! metric s' = Some initMetric ∧
    (∀ n, (n < length (metrics s))%nat → metrics s' !! n = metrics s !! n) ∧
    report s' = metric s' ∧
    longestInteractionMap s' = longestInteractionMap s ∧
    heap s' = heap s.
Proof.
  eexists. split; [reflexivity|]. state_fields.
  unfold getInteractionCountForNavigation. state_fields.
  repeat split; try done.
  - lia.
  - by rewrite lookup_app_r, Nat.sub_diag.
  - intros n Hn. by rewrite lookup_app_l.
Qed.

Lemma mapMirrorsList_within s :
  linked s → mapMirrorsList s ↔ mapWithinList s.
Proof.
  intros Hs. split.
  - intros Hm k r Hk. by apply Hm in Hk as [? _].
  - intros Hw k r. split.
    + intros Hk. split; [by eapply Hw|].
      destruct (lookup_lt_is_Some_2 _ _ (closed_map _ (linked_closed _ Hs) _ _ Hk))
        as [i Hi].
      rewrite Hi. simpl. f_equal. by eapply (linked_map_id _ Hs).
    + intros [Hr Hid]. destruct (heap s !! r) as [i|] eqn:Hi; [|done].
      injection Hid as <-. by apply (linked_list_map _ Hs).
Qed.

(** C1 at a restore.  After one interaction and a restore from the
    bfcache the list is empty while the map still holds the interaction:
    the map no longer mirrors the list. *)
Theorem C1_restore_leaves_map :
  run [Entries 1 [ev 1 100]; BFCacheRestore 1] init = Some restoredAfterOne ∧
  longestInteractionList restoredAfterOne = [] ∧
  longestInteractionMap restoredAfterOne !! Some 1 = Some 0%nat ∧
  ¬ mapMirrorsList restoredAfterOne.
Proof.
  split; [vm_compute; reflexivity|]. split; [reflexivity|].
  split; [vm_compute; reflexivity|].
  intros Hm. destruct (Hm (Some 1) 0%nat) as [H _].
  destruct H as [Hin _]; [vm_compute; reflexivity|].
  simpl in Hin. by apply elem_of_nil in Hin.
Qed.

(** C2 at a restore.  The restore leaves the map as it was, and what is
    estimated afterwards depends on what happened before: the same
    restore followed by the same batch yields no estimate and no call of
    the reporter when interaction 1 had been seen before the restore, and
    an estimate of 200 that is reported when it had not. *)
Theorem C2_restore_keeps_history :
  onBFCacheRestore 1 afterFirstEvent ≫= (λ s, Some (longestInteractionMap s))
    = Some (longestInteractionMap afterFirstEvent) ∧
  longestInteractionMap afterFirstEvent !! Some 1 = Some 0%nat ∧
  (∃ sA sB,
     run [Entries 1 [ev 1 100]; BFCacheRestore 1; Entries 2 [ev 1 200]] init = Some sA ∧
     run [BFCacheRestore 1; Entries 2 [ev 1 200]] init = Some sB ∧
     longestInteractionList sA = [] ∧
     estimatedLatency 2 sA = None ∧
     (λ c, (boundMetric c, reportedValue c)) <$> reported sA = [(0%nat, 100)] ∧
     estimatedLatency 2 sB = Some 200 ∧
     (λ c, (boundMetric c, reportedValue c)) <$> reported sB = [(1%nat, 200)]).
Proof.
  split; [reflexivity|]. split; [vm_compute; reflexivity|].
  eexists _, _. split; [vm_compute; reflexivity|]. split; [vm_compute; reflexivity|].
  repeat split; vm_compute; reflexivity.
Qed.

(** *** Without a restore the map mirrors the list *)

Lemma sortAndTrim_mapWithinList s s' :
  linked s → mapWithinList s → sortAndTrim s = Some s' → mapWithinList s'.
Proof.
  intros Hl Hw.
  destruct (resolve_total _ _ (closed_list _ (linked_closed _ Hl))) as [objs Hres].
  rewrite (sortAndTrim_Some _ _ Hres). intros [= <-] k r. state_fields.
  set (sorted := sort byLatencyDesc objs).
  intros Hk. pose proof (forget_lookup_Some _ _ _ _ Hk) as Hk1.
  assert (r ∈ sorted.*1) as (p & -> & Hp)%list_elem_of_fmap.
  { unfold sorted. rewrite sort_perm, (resolve_fst _ _ _ Hres). by eapply Hw. }
  rewrite <-(take_drop MAX_INTERACTIONS_TO_CONSIDER sorted) in Hp.
  apply elem_of_app in Hp as [Hp|Hp]; [by apply list_elem_of_fmap_2|].
  assert (heap s !! p.1 = Some p.2) as Hheap.
  { eapply resolve_elem_of; [done|]. rewrite <-(sort_perm byLatencyDesc objs).
    fold sorted. rewrite <-(take_drop MAX_INTERACTIONS_TO_CONSIDER sorted).
    apply elem_of_app. by right. }
  pose proof (linked_map_id _ Hl _ _ _ Hk1 Hheap) as <-.
  by rewrite (forget_lookup_eq _ _ _ Hp) in Hk.
Qed.

Lemma processEntry_mapWithinList entry s s' :
  consistent s → mapWithinList s → processEntry entry s = Some s' → mapWithinList s'.
Proof.
  intros Hs Hw. unfold processEntry.
  destruct (possiblyLongest entry s) as [[|]|]; simpl; [|by intros [= <-]|done].
  destruct (upsert_linked entry s (consistent_linked _ Hs)) as (s1 & H1 & Hl1).
  rewrite H1. simpl. apply sortAndTrim_mapWithinList; [done|].
  intros k r Hk.
  destruct (upsert_cases _ _ _ H1) as [(_ & _ & _ & _ & _ & -> & Hm)|(_ & _ & -> & Hm)];
    rewrite Hm in Hk.
  - by eapply Hw.
  - apply elem_of_app. apply lookup_insert_Some in Hk as [[_ <-]|[_ Hk]].
    + right. by left.
    + left. by eapply Hw.
Qed.

Lemma handleEntry_mapWithinList entry s s' :
  consistent s → mapWithinList s → handleEntry entry s = Some s' → mapWithinList s'.
Proof.
  intros Hs Hw. unfold handleEntry.
  assert (∃ s1, (if truthy (interactionId entry) then processEntry entry s else Some s)
                = Some s1 ∧ consistent s1 ∧ mapWithinList s1) as (s1 & -> & Hs1 & Hw1).
  { destruct (truthy _); [|by eauto].
    destruct (processEntry_consistent entry s Hs) as (s1 & H1 & Hs1).
    exists s1. split; [done|]. split; [done|].
    exact (processEntry_mapWithinList _ _ _ Hs Hw H1). }
  simpl. destruct (String.eqb _ _); [|by intros [= <-]].
  destruct (matchingEntry entry s1) as [[|]|]; simpl; [by intros [= <-]| |done].
  by apply processEntry_mapWithinList.
Qed.

Lemma forEach_handleEntry_mapWithinList entries s s' :
  consistent s → mapWithinList s →
  forEach handleEntry entries s = Some s' → mapWithinList s'.
Proof.
  revert s. induction entries as [|e entries IH]; intros s Hs Hw; simpl.
  - by intros [= <-].
  - destruct (handleEntry_consistent e s Hs) as (s1 & H1 & Hs1). rewrite H1. simpl.
    apply IH; [done|]. exact (handleEntry_mapWithinList _ _ _ Hs Hw H1).
Qed.

Lemma callReport_frame force s s' :
  callReport force s = Some s' →
  longestInteractionList s' = longestInteractionList s ∧
  longestInteractionMap s' = longestInteractionMap s.
Proof.
  unfold callReport. destruct (metrics s !! report s) as [m|]; [|done]. simpl.
  destruct (readArray _ _); [|done]. simpl. by intros [= <-].
Qed.

Lemma handleEntries_mapWithinList interactionCount entries s s' :
  consistent s → mapWithinList s →
  handleEntries interactionCount entries s = Some s' → mapWithinList s'.
Proof.
  intros Hs Hw. unfold handleEntries.
  destruct (forEach handleEntry entries s) as [s1|] eqn:H1; [|done]. simpl.
  pose proof (forEach_handleEntry_mapWithinList _ _ _ Hs Hw H1) as Hw1.
  destruct (estimateP98LongestInteraction _ s1) as [r|]; [|by intros [= <-]].
  destruct (heap s1 !! r); [|done]. simpl.
  destruct (metrics s1 !! metric s1); [|done]. simpl.
  case_bool_decide; [|by intros [= <-]].
  intros [Hl Hm]%callReport_frame k r'. rewrite Hl, Hm. apply Hw1.
Qed.

Lemma onHidden_mapWithinList interactionCount records s s' :
  consistent s → mapWithinList s →
  onHidden interactionCount records s = Some s' → mapWithinList s'.
Proof.
  intros Hs Hw. unfold onHidden.
  destruct (handleEntries interactionCount records s) as [s1|] eqn:H1; [|done]. simpl.
  pose proof (handleEntries_mapWithinList _ _ _ _ Hs Hw H1) as Hw1.
  destruct (metrics s1 !! metric s1); [|done]. simpl.
  intros [Hl Hm]%callReport_frame k r. rewrite Hl, Hm.
  destruct (_ && _); apply Hw1.
Qed.

(** As long as no restore from the bfcache is delivered, the map holds
    exactly the interactions of the list. *)
Lemma mapMirrorsList_without_restore ns :
  Forall (λ n, ∀ c, n ≠ BFCacheRestore c) ns →
  ∃ s, run ns init = Some s ∧ mapMirrorsList s.
Proof.
  intros Hns.
  assert (∀ s, consistent s → mapWithinList s →
            ∃ s', run ns s = Some s' ∧ consistent s' ∧ mapWithinList s') as Hrun.
  { induction Hns as [|n ns Hn _ IH]; intros s Hs Hw; [by exists s|].
    unfold run. simpl. destruct (deliver_consistent n s Hs) as (s1 & H1 & Hs1).
    rewrite H1. simpl. apply IH; [done|].
    destruct n as [c es|c es|c]; simpl in H1.
    - exact (handleEntries_mapWithinList _ _ _ _ Hs Hw H1).
    - exact (onHidden_mapWithinList _ _ _ _ Hs Hw H1).
    - by destruct (Hn c). }
  destruct (Hrun init consistent_init) as (s & Hs & Hc & Hw).
  { intros k r Hk. simpl in Hk. by rewrite lookup_empty in Hk. }
  exists s. split; [done|]. by apply mapMirrorsList_within; [apply Hc|].
Qed.

(** Under a mirroring map, "the id is in the map" and "an interaction of
    the list has the id" are the same. *)
Lemma in_map_iff_in_list s k :
  mapMirrorsList s →
  is_Some (longestInteractionMap s !! k) ↔
  ∃ r i, r ∈ longestInteractionList s ∧ heap s !! r = Some i ∧ Interaction.id i = k.
Proof.
  intros Hm. split.
  - intros [r Hr]. apply Hm in Hr as [Hin Hid]. exists r.
    destruct (heap s !! r) as [i|]; [|done]. injection Hid as <-. by exists i.
  - intros (r & i & Hin & Hi & <-). exists r. apply Hm. split; [done|]. by rewrite Hi.
Qed.

(** A [first-input] entry with an id is checked after it has been
    processed.  After a restore the object it was merged into is not in
    the list, no match is found, and the entry is merged a second time. *)
Lemma firstInput_with_id_is_checked :
  truthy (interactionId firstInputWithId) = true ∧
  reachable restoredAfterOne ∧
  handleEntry firstInputWithId restoredAfterOne
    ≠ processEntry firstInputWithId restoredAfterOne ∧
  (s ← handleEntry firstInputWithId restoredAfterOne;
   Interaction.entries <$> heap s !! 0%nat)
    = Some [ev 1 100; firstInputWithId; firstInputWithId].
Proof.
  split; [reflexivity|]. split; [|split].
  - exists [Entries 1 [ev 1 100]; BFCacheRestore 1]. vm_compute. reflexivity.
  - vm_compute. discriminate.
  - vm_compute. reflexivity.
Qed.

(** * Further properties *)

(** ** Sorting numbers *)

Lemma insert_by_fmap {A B} (f : A → B) (cmp : B → B → Z) x l :
  f <$> insert_by (λ a b, cmp (f a) (f b)) x l = insert_by cmp (f x) (f <$> l).
Proof.
  induction l as [|y l IH]; [done|]. simpl.
  destruct (0 <? cmp (f x) (f y)); [|done]. by rewrite fmap_cons, IH.
Qed.

Lemma sort_fmap {A B} (f : A → B) (cmp : B → B → Z) l :
  f <$> sort (λ a b, cmp (f a) (f b)) l = sort cmp (f <$> l).
Proof.
  induction l as [|x l IH]; [done|]. simpl. by rewrite insert_by_fmap, IH.
Qed.

Lemma sort_byLatencyDesc_latencies (objs : list (ref * Interaction.t)) :
  (λ p, Interaction.latency p.2) <$> sort byLatencyDesc objs =
  sort byValueDesc ((λ p, Interaction.latency p.2) <$> objs).
Proof.
  apply (sort_fmap (λ p : ref * Interaction.t, Interaction.latency p.2) byValueDesc).
Qed.

Lemma insert_byValueDesc_sorted x l :
  StronglySorted (flip Z.le) l →
  StronglySorted (flip Z.le) (insert_by byValueDesc x l).
Proof.
  induction 1 as [|y l Hl IH Hy]; simpl.
  - repeat constructor.
  - unfold byValueDesc at 1. case_match eqn:Hc.
    + apply Z.ltb_lt in Hc. constructor; [done|].
      rewrite insert_by_perm. constructor; [|done]. unfold flip. lia.
    + apply Z.ltb_ge in Hc. constructor; [by constructor|].
      constructor; [unfold flip; lia|].
      eapply Forall_impl; [exact Hy|]. unfold flip. intros; lia.
Qed.

Lemma sort_byValueDesc_sorted l : StronglySorted (flip Z.le) (sort byValueDesc l).
Proof.
  induction l as [|x l IH]; simpl; [constructor|].
  by apply insert_byValueDesc_sorted.
Qed.

(** A sorted array of numbers is determined by its elements. *)
Lemma sorted_numbers_unique (l1 l2 : list Z) :
  StronglySorted (flip Z.le) l1 → StronglySorted (flip Z.le) l2 →
  l1 ≡ₚ l2 → l1 = l2.
Proof.
  apply StronglySorted_unique_strong. unfold flip. intros; lia.
Qed.

Lemma sort_byValueDesc_perm_eq l1 l2 :
  l1 ≡ₚ l2 → sort byValueDesc l1 = sort byValueDesc l2.
Proof.
  intros Hp. apply sorted_numbers_unique; try apply sort_byValueDesc_sorted.
  by rewrite !sort_perm.
Qed.

Lemma insert_byValueDesc_head x l :
  Forall (λ y, y ≤ x) l → insert_by byValueDesc x l = x :: l.
Proof.
  destruct l as [|y l]; [done|]. intros [Hy _]%Forall_cons. simpl.
  unfold byValueDesc. by rewrite (proj2 (Z.ltb_ge _ _)) by lia.
Qed.

Lemma sort_byValueDesc_id l :
  StronglySorted (flip Z.le) l → sort byValueDesc l = l.
Proof.
  induction 1 as [|x l Hl IH Hx]; [done|]. simpl. rewrite IH.
  by apply insert_byValueDesc_head.
Qed.

Lemma insert_byLatencyDesc_head x l :
  Forall (notShorter x) l → insert_by byLatencyDesc x l = x :: l.
Proof.
  destruct l as [|y l]; [done|]. intros [Hy _]%Forall_cons. simpl.
  unfold byLatencyDesc. unfold notShorter in Hy.
  by rewrite (proj2 (Z.ltb_ge _ _)) by lia.
Qed.

(** Sorting an array that is sorted already leaves it as it is. *)
Lemma sort_byLatencyDesc_id l :
  StronglySorted notShorter l → sort byLatencyDesc l = l.
Proof.
  induction 1 as [|x l Hl IH Hx]; [done|]. simpl. rewrite IH.
  by apply insert_byLatencyDesc_head.
Qed.

Lemma take_insert_take k x l :
  take k (insert_by byValueDesc x (take k l)) = take k (insert_by byValueDesc x l).
Proof.
  revert l. induction k as [|k IH]; intros l; [done|].
  destruct l as [|y l]; [done|]. simpl.
  destruct (0 <? byValueDesc x y); simpl.
  - by rewrite IH.
  - f_equal. destruct k as [|k]; [done|]. simpl. f_equal.
    rewrite take_take. f_equal. lia.
Qed.

Lemma take_cons_same k (x : Z) l :
  (k ≤ length l)%nat → Forall (λ y, y = x) (take k l) → take k (x :: l) = take k l.
Proof.
  revert l. induction k as [|k IH]; intros l Hlen Hall; [done|].
  destruct l as [|y l]; [simpl in Hlen; lia|]. simpl in *.
  apply Forall_cons in Hall as [-> Hall]. f_equal. apply IH; [lia|done].
Qed.

(** A number that is not above the [k] first ones of a sorted array does
    not change them when it is inserted. *)
Lemma take_insert_small k x l :
  StronglySorted (flip Z.le) l → (k ≤ length l)%nat →
  Forall (λ y, x ≤ y) (take k l) →
  take k (insert_by byValueDesc x l) = take k l.
Proof.
  intros Hs. revert k. induction Hs as [|y l Hl IH Hy]; intros k Hlen Hall.
  - simpl in Hlen. by assert (k = 0%nat) as -> by lia.
  - destruct k as [|k]; [done|]. simpl in *.
    apply Forall_cons in Hall as [Hxy Hall]. unfold byValueDesc at 1.
    case_match eqn:Hc.
    + simpl. f_equal. apply IH; [lia|done].
    + apply Z.ltb_ge in Hc. assert (y = x) as -> by lia. simpl. f_equal.
      apply take_cons_same; [lia|].
      apply Forall_forall. intros z Hz.
      pose proof (proj1 (Forall_forall _ _) Hall z Hz) as H1. simpl in H1.
      assert (z ∈ l) as Hzl by (by eapply subseteq_take).
      pose proof (proj1 (Forall_forall _ _) Hy z Hzl) as H2. unfold flip in H2. lia.
Qed.

(** ** The list as an array of objects *)

Lemma StronglySorted_of_lookup {A} (R : relation A) l :
  (∀ n1 n2 x y, (n1 < n2)%nat → l !! n1 = Some x → l !! n2 = Some y → R x y) →
  StronglySorted R l.
Proof.
  induction l as [|x l IH]; intros H; constructor.
  - apply IH. intros n1 n2 y z Hn H1 H2. apply (H (S n1) (S n2)); [lia|done..].
  - apply Forall_forall. intros y [n Hn]%list_elem_of_lookup.
    apply (H 0%nat (S n)); [lia|done..].
Qed.

Lemma resolve_lookup_inv h l objs n p :
  resolve h l = Some objs → objs !! n = Some p →
  l !! n = Some p.1 ∧ h !! p.1 = Some p.2.
Proof.
  intros Hres Hn. split.
  - rewrite <-(resolve_fst _ _ _ Hres), list_lookup_fmap, Hn. done.
  - eapply resolve_elem_of; [done|]. by eapply list_elem_of_lookup_2.
Qed.

(** In a consistent state the resolved list is sorted. *)
Lemma consistent_resolve_sorted s objs :
  sortedByLatency s →
  resolve (heap s) (longestInteractionList s) = Some objs →
  StronglySorted notShorter objs.
Proof.
  intros Hsort Hres. apply StronglySorted_of_lookup.
  intros n1 n2 p1 p2 Hn H1 H2.
  destruct (resolve_lookup_inv _ _ _ _ _ Hres H1) as [Hl1 Hh1].
  destruct (resolve_lookup_inv _ _ _ _ _ Hres H2) as [Hl2 Hh2].
  exact (Hsort _ _ _ _ _ _ Hn Hl1 Hl2 Hh1 Hh2).
Qed.

Lemma tracked_resolve s objs :
  resolve (heap s) (longestInteractionList s) = Some objs →
  trackedLatencies s = Some ((λ p, Interaction.latency p.2) <$> objs).
Proof.
  intros Hres. unfold trackedLatencies, tracked. rewrite Hres. simpl.
  f_equal. rewrite <-list_fmap_compose. done.
Qed.

(** ** A fragment that does not raise the latency *)

Lemma processEntry_lower_fragment entry s r i :
  consistent s →
  longestInteractionMap s !! interactionId entry = Some r →
  heap s !! r = Some i →
  duration entry ≤ Interaction.latency i →
  processEntry entry s =
    Some {| heap :=
              <[r := {| Interaction.id := Interaction.id i;
                        Interaction.latency := Interaction.latency i;
                        Interaction.entries := Interaction.entries i ++ [entry] |}]>
                (heap s);
            longestInteractionList := longestInteractionList s;
            longestInteractionMap := longestInteractionMap s;
            prevInteractionCount := prevInteractionCount s;
            metrics := metrics s;
            metric := metric s;
            report := report s;
            reported := reported s |}.
Proof.
  intros Hs Hk Hi Hd.
  rewrite processEntry_accepted; [|left; by eexists|apply Hs].
  rewrite (upsert_existing _ _ _ _ Hk Hi). simpl.
  assert (mergeEntry i entry =
            {| Interaction.id := Interaction.id i;
               Interaction.latency := Interaction.latency i;
               Interaction.entries := Interaction.entries i ++ [entry] |}) as ->.
  { unfold mergeEntry. f_equal. lia. }
  set (i' := {| Interaction.id := Interaction.id i;
                Interaction.latency := Interaction.latency i;
                Interaction.entries := Interaction.entries i ++ [entry] |}).
  set (s1 := {| heap := <[r := i']> (heap s);
                longestInteractionList := longestInteractionList s |}).
  assert (∀ r' i1, heap s1 !! r' = Some i1 →
            ∃ i0, heap s !! r' = Some i0 ∧
                  Interaction.latency i0 = Interaction.latency i1) as Hsame.
  { intros r' i1. unfold s1. state_fields. destruct (decide (r' = r)) as [->|Hne].
    - rewrite list_lookup_insert_eq by by eapply lookup_lt_Some.
      intros [= <-]. by exists i.
    - rewrite list_lookup_insert_ne by done. intros H. by exists i1. }
  destruct (resolve_total (heap s1) (longestInteractionList s1)) as [objs Hres].
  { unfold s1. state_fields. intros r' Hr'. rewrite length_insert.
    by apply (closed_list _ (linked_closed _ (consistent_linked _ Hs))). }
  rewrite (sortAndTrim_short s1 objs); [| apply Hs | done].
  rewrite sort_byLatencyDesc_id.
  - rewrite (resolve_fst _ _ _ Hres). done.
  - apply StronglySorted_of_lookup. intros n1 n2 p1 p2 Hn H1 H2.
    destruct (resolve_lookup_inv _ _ _ _ _ Hres H1) as [Hl1 Hh1].
    destruct (resolve_lookup_inv _ _ _ _ _ Hres H2) as [Hl2 Hh2].
    destruct (Hsame _ _ Hh1) as (j1 & Hj1 & Heq1).
    destruct (Hsame _ _ Hh2) as (j2 & Hj2 & Heq2).
    unfold notShorter. rewrite <-Heq1, <-Heq2.
    exact (consistent_sorted _ Hs _ _ _ _ _ _ Hn Hl1 Hl2 Hj1 Hj2).
Qed.

(** X1.  An entry whose id is in the map and whose duration does not
    exceed the latency of the object there changes nothing but the
    entries of that object: the latency, the list with its order, the
    map, the metric and the reports stay exactly as they are. *)
Theorem lower_fragment_only_appends entry s r i :
  consistent s →
  longestInteractionMap s !! interactionId entry = Some r →
  heap s !! r = Some i →
  duration entry ≤ Interaction.latency i →
  processEntry entry s =
    Some {| heap :=
              <[r := {| Interaction.id := Interaction.id i;
                        Interaction.latency := Interaction.latency i;
                        Interaction.entries := Interaction.entries i ++ [entry] |}]>
                (heap s);
            longestInteractionList := longestInteractionList s;
            longestInteractionMap := longestInteractionMap s;
            prevInteractionCount := prevInteractionCount s;
            metrics := metrics s;
            metric := metric s;
            report := report s;
            reported := reported s |}.
Proof. apply processEntry_lower_fragment. Qed.

Lemma lower_fragment_only_appends_witness :
  longestInteractionList <$> processEntry (ev 1 5) tenInteractions =
    Some (longestInteractionList tenInteractions) ∧
  (s ← processEntry (ev 1 5) tenInteractions; heap s !! 0%nat) =
    Some {| Interaction.id := Some 1; Interaction.latency := 10;
            Interaction.entries := [ev 1 10; ev 1 5] |}.
Proof.
  rewrite (lower_fragment_only_appends (ev 1 5) tenInteractions 0%nat
             {| Interaction.id := Some 1; Interaction.latency := 10;
                Interaction.entries := [ev 1 10] |}).
  - split; reflexivity.
  - apply reachable_consistent, tenInteractions_reachable.
  - reflexivity.
  - reflexivity.
  - simpl. lia.
Defined.

(** ** The list holds the longest interactions *)

Lemma resolve_app h l1 l2 o1 o2 :
  resolve h l1 = Some o1 → resolve h l2 = Some o2 →
  resolve h (l1 ++ l2) = Some (o1 ++ o2).
Proof. rewrite !resolve_Some. apply Forall2_app. Qed.

Lemma resolve_heap_app h h' l objs :
  resolve h l = Some objs → resolve (h ++ h') l = Some objs.
Proof.
  rewrite !resolve_Some. intros H. eapply Forall2_impl; [exact H|].
  intros r p [Hr Hp]. split; [done|].
  rewrite lookup_app_l; [done|]. by eapply lookup_lt_Some.
Qed.

Lemma processEntry_map_keys entry s s' k :
  processEntry entry s = Some s' →
  is_Some (longestInteractionMap s' !! k) →
  k = interactionId entry ∨ is_Some (longestInteractionMap s !! k).
Proof.
  unfold processEntry.
  destruct (possiblyLongest entry s) as [[|]|]; simpl;
    [|intros [= <-]; by right|done].
  destruct (upsert entry s) as [s1|] eqn:H1; [|done]. simpl.
  intros [_ Hm]%sortAndTrim_cases [r Hk%Hm].
  destruct (upsert_cases _ _ _ H1) as [(_ & _ & _ & _ & _ & _ & Hmap)|(_ & _ & _ & Hmap)];
    rewrite Hmap in Hk; [right; by eexists|].
  apply lookup_insert_Some in Hk as [[<- _]|[_ Hk]]; [by left|right; by eexists].
Qed.

(** The latencies of the list after an entry that starts an interaction
    has been taken: the ten longest of the old ones and the new one. *)
Lemma processEntry_new_latencies entry s L :
  consistent s →
  longestInteractionMap s !! interactionId entry = None →
  acceptable entry s →
  trackedLatencies s = Some L →
  ∃ s', processEntry entry s = Some s' ∧ consistent s' ∧
        trackedLatencies s' = Some (topLatencies (L ++ [duration entry])).
Proof.
  intros Hs Hk Hyes HL.
  pose proof (linked_closed _ (consistent_linked _ Hs)) as Hc.
  destruct (resolve_total _ _ (closed_list _ Hc)) as [objs Hres].
  rewrite (tracked_resolve _ _ Hres) in HL. injection HL as <-.
  destruct (processEntry_consistent entry s Hs) as (s' & Hp & Hs').
  exists s'. split; [done|]. split; [done|].
  rewrite processEntry_accepted, (upsert_new _ _ Hk) in Hp by done. simpl in Hp.
  set (n := length (heap s)) in *.
  assert (resolve (heap s ++ [newInteraction entry]) (longestInteractionList s ++ [n])
          = Some (objs ++ [(n, newInteraction entry)])) as Hres1.
  { apply resolve_app; [by apply resolve_heap_app|].
    apply (resolve_of_objs _ [(n, newInteraction entry)]).
    intros p ->%list_elem_of_singleton. simpl.
    by rewrite lookup_app_r, Nat.sub_diag. }
  erewrite sortAndTrim_Some in Hp; [|exact Hres1]. injection Hp as <-.
  erewrite tracked_resolve.
  2:{ state_fields. apply resolve_of_objs. intros p Hp%subseteq_take.
      eapply resolve_elem_of; [exact Hres1|]. by rewrite <-(sort_perm byLatencyDesc). }
  f_equal. unfold topLatencies.
  rewrite fmap_take, sort_byLatencyDesc_latencies, fmap_app. done.
Qed.

Lemma topLatencies_snoc ds d :
  topLatencies (topLatencies ds ++ [d]) = topLatencies (ds ++ [d]).
Proof.
  unfold topLatencies.
  rewrite (sort_byValueDesc_perm_eq (_ ++ [d]) (d :: take MAX_INTERACTIONS_TO_CONSIDER
             (sort byValueDesc ds))) by (by rewrite Permutation_app_comm).
  rewrite (sort_byValueDesc_perm_eq (ds ++ [d]) (d :: ds))
    by (by rewrite Permutation_app_comm).
  simpl. rewrite (sort_byValueDesc_id (take _ _)).
  - apply take_insert_take.
  - apply StronglySorted_take, sort_byValueDesc_sorted.
Qed.

Lemma topLatencies_small ds d m :
  length (topLatencies ds) = MAX_INTERACTIONS_TO_CONSIDER →
  last (topLatencies ds) = Some m → d ≤ m →
  topLatencies (ds ++ [d]) = topLatencies ds.
Proof.
  unfold topLatencies. intros Hlen Hlast Hd.
  rewrite (sort_byValueDesc_perm_eq (ds ++ [d]) (d :: ds))
    by (by rewrite Permutation_app_comm).
  simpl. apply take_insert_small.
  - apply sort_byValueDesc_sorted.
  - rewrite length_take in Hlen. lia.
  - apply Forall_forall. intros y Hy.
    apply last_Some in Hlast as [l' Hl'].
    pose proof (StronglySorted_take (flip Z.le) MAX_INTERACTIONS_TO_CONSIDER _
                  (sort_byValueDesc_sorted ds)) as Hsorted.
    rewrite Hl' in Hsorted, Hy.
    apply elem_of_app in Hy as [Hy|Hy].
    + pose proof (StronglySorted_app_1_elem_of _ _ _ _ _ Hsorted Hy
                    (list_elem_of_here _ _)) as Hle. unfold flip in Hle. lia.
    + apply list_elem_of_singleton in Hy as ->. done.
Qed.

Lemma trackedLatencies_length s L :
  trackedLatencies s = Some L → length L = length (longestInteractionList s).
Proof.
  unfold trackedLatencies, tracked.
  destruct (resolve _ _) as [objs|] eqn:Hres; [|done]. simpl. intros [= <-].
  by rewrite !length_fmap, <-(resolve_fst _ _ _ Hres), length_fmap.
Qed.

Lemma trackedLatencies_last s L m i :
  trackedLatencies s = Some L →
  last (longestInteractionList s) = Some m → heap s !! m = Some i →
  last L = Some (Interaction.latency i).
Proof.
  intros HL Hlast Hi. unfold trackedLatencies, tracked in HL.
  destruct (resolve _ _) as [objs|] eqn:Hres; [|done]. simpl in HL.
  injection HL as <-. rewrite <-list_fmap_compose, fmap_last.
  apply last_Some in Hlast as [l' Hl'].
  destruct (resolve_lookup _ _ _ (length l') m Hres) as (i' & Hobj & Hi').
  { by rewrite Hl', lookup_app_r, Nat.sub_diag. }
  assert (i' = i) as -> by congruence.
  rewrite last_lookup.
  assert (length objs = S (length l')) as ->.
  { rewrite <-(length_fmap fst objs), (resolve_fst _ _ _ Hres), Hl', length_app.
    simpl. lia. }
  simpl. by rewrite Hobj.
Qed.

Lemma forEach_processEntry_longest entries :
  ∀ seen s,
    consistent s →
    (∀ k, is_Some (longestInteractionMap s !! k) → k ∈ interactionId <$> seen) →
    trackedLatencies s = Some (topLatencies (duration <$> seen)) →
    NoDup (interactionId <$> (seen ++ entries)) →
    ∃ s', forEach processEntry entries s = Some s' ∧
          trackedLatencies s' = Some (topLatencies (duration <$> (seen ++ entries))).
Proof.
  induction entries as [|e entries IH]; intros seen s Hs Hkeys HL Hnd; simpl.
  - exists s. by rewrite app_nil_r.
  - assert (longestInteractionMap s !! interactionId e = None) as Hk.
    { destruct (longestInteractionMap s !! interactionId e) as [r|] eqn:Hr; [|done].
      exfalso. rewrite fmap_app, fmap_cons in Hnd.
      apply NoDup_app in Hnd as (_ & Hdisj & _).
      apply (Hdisj (interactionId e)); [apply Hkeys; by eexists|by left]. }
    pose proof (linked_closed _ (consistent_linked _ Hs)) as Hc.
    assert (∃ s1, processEntry e s = Some s1 ∧ consistent s1 ∧
                  trackedLatencies s1 =
                    Some (topLatencies (duration <$> (seen ++ [e])))) as (s1 & H1 & Hs1 & HL1).
    { destruct (possiblyLongest_total e s Hc) as [ok Hok].
      pose proof (possiblyLongest_spec _ _ _ Hok) as Hspec. destruct ok.
      - destruct (processEntry_new_latencies e s _ Hs Hk (proj1 Hspec eq_refl) HL)
          as (s1 & H1 & Hs1 & HL1).
        exists s1. split; [done|]. split; [done|].
        by rewrite HL1, topLatencies_snoc, fmap_app.
      - assert (¬ acceptable e s) as Hno by (intros H%Hspec; done).
        exists s. split; [by apply processEntry_rejected|]. split; [done|].
        rewrite HL, fmap_app. simpl. f_equal. symmetry.
        assert (¬ (length (longestInteractionList s) < MAX_INTERACTIONS_TO_CONSIDER)%nat)
          as Hfull by (intros H; apply Hno; right; by left).
        destruct (last (longestInteractionList s)) as [m|] eqn:Hlast.
        2:{ apply last_None in Hlast. rewrite Hlast in Hfull.
            unfold MAX_INTERACTIONS_TO_CONSIDER in Hfull. simpl in Hfull. lia. }
        assert (m ∈ longestInteractionList s) as Hm.
        { apply last_Some in Hlast as [l' ->]. apply elem_of_app. right. by left. }
        destruct (lookup_lt_is_Some_2 _ _ (closed_list _ Hc _ Hm)) as [i Hi].
        apply (topLatencies_small _ _ (Interaction.latency i)).
        + rewrite (trackedLatencies_length _ _ HL).
          pose proof (consistent_length _ Hs). lia.
        + by eapply trackedLatencies_last.
        + destruct (decide (duration e ≤ Interaction.latency i)) as [|Hgt]; [done|].
          destruct Hno. right. right. exists m, i. repeat split; [done..|lia]. }
    rewrite H1. simpl.
    destruct (IH (seen ++ [e]) s1 Hs1) as (s' & H' & HL'); [|done| |].
    + intros k Hk'. rewrite fmap_app. apply elem_of_app.
      destruct (processEntry_map_keys _ _ _ _ H1 Hk') as [->|Hold].
      * right. by left.
      * left. by apply Hkeys.
    + by rewrite <-(assoc_L (++)).
    + exists s'. split; [done|]. by rewrite <-(assoc_L (++)) in HL'.
Qed.

(** X2.  When every entry has an id of its own, the latencies of the
    list after all of them have been processed are the ten largest
    durations (all of them when there are fewer), longest first: nothing
    that belongs among the ten longest is ever dropped. *)
Theorem tracked_are_the_longest entries :
  NoDup (interactionId <$> entries) →
  ∃ s, forEach processEntry entries init = Some s ∧
       trackedLatencies s = Some (topLatencies (duration <$> entries)).
Proof.
  intros Hnd.
  apply (forEach_processEntry_longest entries [] init); [apply consistent_init|..].
  - intros k [r Hr]. simpl in Hr. by rewrite lookup_empty in Hr.
  - reflexivity.
  - done.
Qed.

Lemma tracked_are_the_longest_witness :
  ∃ s, forEach processEntry (increasing 12) init = Some s ∧
       trackedLatencies s = Some [120; 110; 100; 90; 80; 70; 60; 50; 40; 30].
Proof.
  destruct (tracked_are_the_longest (increasing 12)) as (s & Hs & HL).
  - apply (bool_decide_unpack _). vm_compute. exact I.
  - exists s. split; [exact Hs|]. rewrite HL. reflexivity.
Defined.

(** ** The estimate and the interaction count *)

Lemma estimate_lookup interactionCount s r :
  estimateP98LongestInteraction interactionCount s = Some r →
  0 ≤ Z.min (Z.of_nat (length (longestInteractionList s)) - 1)
            (getInteractionCountForNavigation interactionCount s `div` 50) ∧
  longestInteractionList s !!
    Z.to_nat (Z.min (Z.of_nat (length (longestInteractionList s)) - 1)
                    (getInteractionCountForNavigation interactionCount s `div` 50))
  = Some r.
Proof.
  unfold estimateP98LongestInteraction, index. intros H.
  destruct (_ <? 0) eqn:Hneg; [done|]. apply Z.ltb_ge in Hneg. done.
Qed.

(** X3.  The more interactions the host has counted, the further down
    the list the estimate is taken: for two counts in order, the estimate
    for the larger count is never longer than the one for the smaller. *)
Theorem estimate_decreases_with_count c1 c2 s l1 l2 :
  consistent s →
  c1 ≤ c2 →
  estimatedLatency c1 s = Some l1 →
  estimatedLatency c2 s = Some l2 →
  l2 ≤ l1.
Proof.
  intros Hs Hc. unfold estimatedLatency.
  destruct (estimateP98LongestInteraction c1 s) as [r1|] eqn:H1; [|done].
  destruct (estimateP98LongestInteraction c2 s) as [r2|] eqn:H2; [|done].
  simpl. destruct (heap s !! r1) as [i1|] eqn:Hi1; [|done].
  destruct (heap s !! r2) as [i2|] eqn:Hi2; [|done]. simpl.
  intros [= <-] [= <-].
  apply estimate_lookup in H1 as [Hpos1 Hl1]. apply estimate_lookup in H2 as [Hpos2 Hl2].
  unfold getInteractionCountForNavigation in *.
  set (L := Z.of_nat (length (longestInteractionList s)) - 1) in *.
  assert ((c1 - prevInteractionCount s) `div` 50 ≤ (c2 - prevInteractionCount s) `div` 50)
    as Hdiv by (apply Z.div_le_mono; lia).
  destruct (decide (Z.to_nat (Z.min L ((c1 - prevInteractionCount s) `div` 50)) =
                    Z.to_nat (Z.min L ((c2 - prevInteractionCount s) `div` 50))))
    as [Heq|Hne].
  - rewrite Heq in Hl1. assert (i1 = i2) as -> by congruence. lia.
  - eapply (consistent_sorted _ Hs); [|exact Hl1|exact Hl2|done..]. lia.
Qed.

Lemma estimate_decreases_with_count_witness :
  estimatedLatency 10 tenInteractions = Some 100 ∧
  estimatedLatency 260 tenInteractions = Some 50 ∧
  50 ≤ 100.
Proof.
  split; [reflexivity|]. split; [reflexivity|].
  apply (estimate_decreases_with_count 10 260 tenInteractions 100 50).
  - apply reachable_consistent, tenInteractions_reachable.
  - lia.
  - reflexivity.
  - reflexivity.
Defined.

(** ** What the tracker leaves alone *)

Lemma upsert_sameSession entry s s1 : upsert entry s = Some s1 → sameSession s1 s.
Proof.
  unfold upsert. destruct (longestInteractionMap s !! interactionId entry) as [r|].
  - destruct (heap s !! r); [|done]. simpl. by intros [= <-].
  - by intros [= <-].
Qed.

Lemma sortAndTrim_sameSession s s' : sortAndTrim s = Some s' → sameSession s' s.
Proof.
  unfold sortAndTrim. destruct (resolve _ _); [|done]. simpl. by intros [= <-].
Qed.

Lemma sameSession_trans s t u : sameSession s t → sameSession t u → sameSession s u.
Proof. unfold sameSession. intros (?&?&?&?&?) (?&?&?&?&?). repeat split; congruence. Qed.

Lemma processEntry_sameSession entry s s' :
  processEntry entry s = Some s' → sameSession s' s.
Proof.
  unfold processEntry.
  destruct (possiblyLongest entry s) as [[|]|]; simpl; [|by intros [= <-]|done].
  destruct (upsert entry s) as [s1|] eqn:H1; [|done]. simpl.
  intros H2%sortAndTrim_sameSession. apply upsert_sameSession in H1.
  by eapply sameSession_trans.
Qed.

Lemma handleEntry_sameSession entry s s' :
  handleEntry entry s = Some s' → sameSession s' s.
Proof.
  unfold handleEntry.
  assert (∀ s1, (if truthy (interactionId entry) then processEntry entry s else Some s)
                = Some s1 → sameSession s1 s) as H1.
  { intros s1. destruct (truthy _); [apply processEntry_sameSession|by intros [= <-]]. }
  destruct (if truthy _ then _ else _) as [s1|]; [|done]. simpl.
  specialize (H1 s1 eq_refl).
  destruct (String.eqb _ _); [|by intros [= <-]].
  destruct (matchingEntry entry s1) as [[|]|]; simpl; [by intros [= <-]| |done].
  intros H2%processEntry_sameSession. by eapply sameSession_trans.
Qed.

Lemma forEach_handleEntry_sameSession entries s s' :
  forEach handleEntry entries s = Some s' → sameSession s' s.
Proof.
  revert s. induction entries as [|e entries IH]; intros s; simpl; [by intros [= <-]|].
  destruct (handleEntry e s) as [s1|] eqn:H1; [|done]. simpl.
  intros H2%IH. apply handleEntry_sameSession in H1. by eapply sameSession_trans.
Qed.

Lemma callReport_Some force s s' :
  callReport force s = Some s' →
  ∃ m es,
    metrics s !! report s = Some m ∧
    readArray (heap s) (Metric.entries m) = Some es ∧
    s' = {| heap := heap s;
            longestInteractionList := longestInteractionList s;
            longestInteractionMap := longestInteractionMap s;
            prevInteractionCount := prevInteractionCount s;
            metrics := metrics s;
            metric := metric s;
            report := report s;
            reported := reported s ++
              [{| forceReport := force; boundMetric := report s;
                  reportedValue := Metric.value m; reportedEntries := es |}] |}.
Proof.
  unfold callReport. destruct (metrics s !! report s) as [m|] eqn:Hm; [|done]. simpl.
  destruct (readArray _ _) as [es|] eqn:Hes; [|done]. simpl. intros [= <-].
  by exists m, es.
Qed.

(** What [handleEntries] does once the entries are handled. *)
Lemma handleEntries_Some interactionCount entries s s' :
  handleEntries interactionCount entries s = Some s' →
  ∃ s1, forEach handleEntry entries s = Some s1 ∧
        sameTracker s' s1 ∧
        prevInteractionCount s' = prevInteractionCount s ∧
        metric s' = metric s ∧ report s' = report s.
Proof.
  unfold handleEntries.
  destruct (forEach handleEntry entries s) as [s1|] eqn:H1; [|done]. simpl.
  pose proof (forEach_handleEntry_sameSession _ _ _ H1) as (Hp & _ & Hm & Hr & _).
  intros H. exists s1. split; [done|].
  destruct (estimateP98LongestInteraction _ s1) as [r|].
  2:{ injection H as <-. by repeat split. }
  destruct (heap s1 !! r); [|done]. simpl in H.
  destruct (metrics s1 !! metric s1); [|done]. simpl in H.
  case_bool_decide; [|injection H as <-; by repeat split].
  apply callReport_Some in H as (m & es & _ & _ & ->).
  unfold sameTracker, setMetric. simpl. by repeat split.
Qed.

(** The interaction count a notification carries. *)
Lemma deliver_prevInteractionCount n s s' :
  deliver n s = Some s' →
  prevInteractionCount s' = prevInteractionCount s ∨
  prevInteractionCount s' = countOf n.
Proof.
  destruct n as [c es|c es|c]; simpl.
  - intros (s1 & _ & _ & H & _)%handleEntries_Some. by left.
  - unfold onHidden.
    destruct (handleEntries c es s) as [s1|] eqn:H1; [|done]. simpl.
    apply handleEntries_Some in H1 as (_ & _ & _ & H1 & _).
    destruct (metrics s1 !! metric s1); [|done]. simpl.
    intros (m & es' & _ & _ & ->)%callReport_Some. left. state_fields.
    rewrite <-H1. by destruct (_ && _).
  - intros [= <-]. by right.
Qed.

Lemma run_prevInteractionCount ns s s' :
  run ns s = Some s' →
  prevInteractionCount s' = prevInteractionCount s ∨
  prevInteractionCount s' ∈ countOf <$> ns.
Proof.
  unfold run. revert s. induction ns as [|n ns IH]; intros s; simpl.
  - intros [= <-]. by left.
  - destruct (deliver n s) as [s1|] eqn:H1; [|done]. simpl. intros H2.
    destruct (IH _ H2) as [Heq|Hin].
    + destruct (deliver_prevInteractionCount _ _ _ H1) as [H|H].
      * left. congruence.
      * right. rewrite Heq, H. by left.
    + right. by right.
Qed.

(** With a count since the baseline that is not negative, a list that is
    not empty has an estimate. *)
Lemma estimate_exists interactionCount s :
  closed s →
  0 ≤ getInteractionCountForNavigation interactionCount s →
  longestInteractionList s ≠ [] →
  ∃ l, estimatedLatency interactionCount s = Some l.
Proof.
  intros Hc HN Hne. unfold estimatedLatency, estimateP98LongestInteraction.
  assert (0 < length (longestInteractionList s))%nat as HL.
  { destruct (longestInteractionList s); [done|simpl; lia]. }
  assert (0 ≤ getInteractionCountForNavigation interactionCount s `div` 50)
    by (apply Z.div_pos; lia).
  rewrite index_nonneg by lia.
  destruct (lookup_lt_is_Some_2 (longestInteractionList s)
              (Z.to_nat (Z.min (Z.of_nat (length (longestInteractionList s)) - 1)
                 (getInteractionCountForNavigation interactionCount s `div` 50))))
    as [r Hr]; [lia|].
  rewrite Hr. simpl.
  destruct (lookup_lt_is_Some_2 _ _
              (closed_list _ Hc r (list_elem_of_lookup_2 _ _ _ Hr))) as [i ->].
  by eexists.
Qed.

(** X4.  If the interaction count of the host never decreases from one
    notification to the next, then at every later count the number of
    interactions since the baseline is not negative, whatever restores
    have happened, and a list that is not empty has an estimate. *)
Theorem count_since_baseline_not_negative ns c :
  StronglySorted Z.le (0 :: (countOf <$> ns) ++ [c]) →
  ∃ s, run ns init = Some s ∧
       0 ≤ getInteractionCountForNavigation c s ∧
       (longestInteractionList s ≠ [] → ∃ l, estimatedLatency c s = Some l).
Proof.
  intros Hsorted. destruct (run_consistent ns) as (s & Hrun & Hs).
  exists s. split; [done|].
  assert (0 ≤ getInteractionCountForNavigation c s) as HN.
  { unfold getInteractionCountForNavigation.
    apply StronglySorted_cons in Hsorted as [H0 Hrest].
    destruct (run_prevInteractionCount _ _ _ Hrun) as [->|Hin].
    - simpl. rewrite Forall_app, Forall_singleton in H0. lia.
    - pose proof (StronglySorted_app_1_elem_of _ _ _ _ _ Hrest Hin
                    (list_elem_of_here _ _)). lia. }
  split; [done|]. apply estimate_exists; [apply Hs|done].
Qed.

Lemma count_since_baseline_not_negative_witness :
  ∃ s, run [Entries 3 [ev 1 100]; BFCacheRestore 7; Entries 7 [ev 2 48]] init = Some s ∧
       0 ≤ getInteractionCountForNavigation 9 s ∧
       estimatedLatency 9 s = Some 48.
Proof.
  destruct (count_since_baseline_not_negative
              [Entries 3 [ev 1 100]; BFCacheRestore 7; Entries 7 [ev 2 48]] 9)
    as (s & Hs & HN & Hest).
  - simpl. repeat (constructor; [repeat constructor; lia|]). constructor.
  - exists s. split; [exact Hs|]. split; [exact HN|].
    vm_compute in Hs. injection Hs as <-. reflexivity.
Defined.

(** ** The metric after a batch *)

Lemma estimate_sameTracker interactionCount s t :
  longestInteractionList s = longestInteractionList t →
  prevInteractionCount s = prevInteractionCount t →
  estimateP98LongestInteraction interactionCount s =
  estimateP98LongestInteraction interactionCount t.
Proof.
  intros Hl Hp. unfold estimateP98LongestInteraction, getInteractionCountForNavigation.
  by rewrite Hl, Hp.
Qed.

Lemma handleEntries_metric_value interactionCount entries s s' r inp :
  consistent s →
  handleEntries interactionCount entries s = Some s' →
  estimateP98LongestInteraction interactionCount s' = Some r →
  heap s' !! r = Some inp →
  ∃ m, metrics s' !! metric s' = Some m ∧
       Metric.value m = Interaction.latency inp.
Proof.
  intros Hs. unfold handleEntries.
  destruct (forEach handleEntry entries s) as [s1|] eqn:H1; [|done]. simpl.
  pose proof (forEach_handleEntry_consistent _ _ _ Hs H1) as Hs1.
  destruct (estimateP98LongestInteraction _ s1) as [r1|] eqn:Hest.
  - destruct (heap s1 !! r1) as [inp1|] eqn:Hinp; [|done]. simpl.
    destruct (metrics s1 !! metric s1) as [m|] eqn:Hm; [|done]. simpl.
    case_bool_decide as Hne.
    + erewrite callReport_setMetric; [|done|by simpl; rewrite Hinp].
      intros [= <-]. unfold estimateP98LongestInteraction in *. state_fields.
      unfold getInteractionCountForNavigation in *. state_fields.
      rewrite Hest. intros [= <-]. rewrite Hinp. intros [= <-].
      eexists. split.
      * apply list_lookup_insert_eq.
        apply (closed_metric _ (linked_closed _ (consistent_linked _ Hs1))).
      * reflexivity.
    + intros [= <-]. rewrite Hest. intros [= <-]. rewrite Hinp. intros [= <-].
      by exists m.
  - intros [= <-]. by rewrite Hest.
Qed.

(** X5.  After a batch has been handled, whenever there is an estimate,
    the value of the metric object is the latency of that estimate. *)
Theorem metric_value_is_estimate interactionCount entries s s' l :
  consistent s →
  handleEntries interactionCount entries s = Some s' →
  estimatedLatency interactionCount s' = Some l →
  Metric.value <$> metrics s' !! metric s' = Some l.
Proof.
  intros Hs H'. unfold estimatedLatency.
  destruct (estimateP98LongestInteraction _ s') as [r|] eqn:Hest; [|done]. simpl.
  destruct (heap s' !! r) as [inp|] eqn:Hinp; [|done]. simpl. intros [= <-].
  destruct (handleEntries_metric_value _ _ _ _ _ _ Hs H' Hest Hinp) as (m & -> & <-).
  done.
Qed.

Lemma metric_value_is_estimate_witness :
  ∃ s', handleEntries 60 [ev 11 200; ev 12 5] tenInteractions = Some s' ∧
        estimatedLatency 60 s' = Some 100 ∧
        Metric.value <$> metrics s' !! metric s' = Some 100.
Proof.
  assert (∃ s', handleEntries 60 [ev 11 200; ev 12 5] tenInteractions = Some s')
    as [s' H'] by (eexists; vm_compute; reflexivity).
  exists s'. split; [exact H'|].
  assert (estimatedLatency 60 s' = Some 100) as Hest.
  { vm_compute in H'. injection H' as <-. reflexivity. }
  split; [exact Hest|].
  apply (metric_value_is_estimate 60 [ev 11 200; ev 12 5] tenInteractions s' 100);
    [apply reachable_consistent, tenInteractions_reachable|exact H'|exact Hest].
Defined.

(** X6.  A callback that brings no entries right after a batch, at the
    same interaction count, changes nothing and makes no call of the
    reporter. *)
Theorem empty_batch_changes_nothing interactionCount entries s s' :
  consistent s →
  handleEntries interactionCount entries s = Some s' →
  handleEntries interactionCount [] s' = Some s'.
Proof.
  intros Hs H'.
  pose proof (handleEntries_Some_consistent _ _ _ _ Hs H') as Hs'.
  unfold handleEntries at 1. simpl.
  destruct (estimateP98LongestInteraction _ s') as [r|] eqn:Hest; [|done].
  pose proof (closed_list _ (linked_closed _ (consistent_linked _ Hs')) _
                (index_elem_of _ _ _ Hest)) as Hr.
  destruct (lookup_lt_is_Some_2 _ _ Hr) as [inp Hinp]. rewrite Hinp. simpl.
  destruct (handleEntries_metric_value _ _ _ _ _ _ Hs H' Hest Hinp) as (m & -> & Hv).
  simpl. by rewrite bool_decide_false by (intros Hne; by rewrite Hv in Hne).
Qed.

Lemma empty_batch_changes_nothing_witness :
  ∃ s', handleEntries 2 [ev 1 300; ev 2 100; ev 1 350] init = Some s' ∧
        handleEntries 2 [] s' = Some s'.
Proof.
  assert (∃ s', handleEntries 2 [ev 1 300; ev 2 100; ev 1 350] init = Some s')
    as [s' H'] by (eexists; vm_compute; reflexivity).
  exists s'. split; [exact H'|].
  apply (empty_batch_changes_nothing 2 [ev 1 300; ev 2 100; ev 1 350] init s');
    [apply consistent_init|exact H'].
Defined.

(** ** Batches *)

Lemma forEach_app {A} (f : A → State → option State) l1 l2 s :
  forEach f (l1 ++ l2) s = forEach f l1 s ≫= forEach f l2.
Proof.
  revert s. induction l1 as [|x l1 IH]; intros s; simpl; [done|].
  destruct (f x s) as [s1|]; simpl; [apply IH|done].
Qed.

Lemma possiblyLongest_sameTracker entry s t :
  sameTracker s t → possiblyLongest entry s = possiblyLongest entry t.
Proof. intros (Hh & Hl & Hm). unfold possiblyLongest. by rewrite Hh, Hl, Hm. Qed.

Lemma upsert_sameTracker entry s t s1 t1 :
  sameTracker s t → upsert entry s = Some s1 → upsert entry t = Some t1 →
  sameTracker s1 t1.
Proof.
  intros (Hh & Hl & Hm) Hs Ht. unfold sameTracker.
  destruct (upsert_cases _ _ _ Hs)
    as [(r & i & Hk & Hi & Hh1 & Hl1 & Hm1)|(Hk & Hh1 & Hl1 & Hm1)];
  destruct (upsert_cases _ _ _ Ht)
    as [(r' & i' & Hk' & Hi' & Hh2 & Hl2 & Hm2)|(Hk' & Hh2 & Hl2 & Hm2)];
    rewrite Hh1, Hl1, Hm1, Hh2, Hl2, Hm2; rewrite Hm in Hk; rewrite Hh in *;
    simplify_eq; by rewrite ?Hl, ?Hm.
Qed.

Lemma sortAndTrim_sameTracker s t s' t' :
  sameTracker s t → sortAndTrim s = Some s' → sortAndTrim t = Some t' →
  sameTracker s' t'.
Proof.
  intros (Hh & Hl & Hm). unfold sortAndTrim. rewrite Hh, Hl, Hm.
  destruct (resolve _ _); [|done]. simpl. intros [= <-] [= <-]. by repeat split.
Qed.

(** The objects, the list and the map after [processEntry] depend on
    nothing but the objects, the list and the map before. *)
Lemma processEntry_sameTracker entry s t s' t' :
  sameTracker s t → processEntry entry s = Some s' → processEntry entry t = Some t' →
  sameTracker s' t'.
Proof.
  intros Hst. unfold processEntry. rewrite (possiblyLongest_sameTracker _ _ _ Hst).
  destruct (possiblyLongest entry t) as [[|]|]; simpl; [|by intros [= <-] [= <-]|done].
  destruct (upsert entry s) as [s1|] eqn:H1; [|done].
  destruct (upsert entry t) as [t1|] eqn:H2; [|done]. simpl.
  apply sortAndTrim_sameTracker. by eapply upsert_sameTracker.
Qed.

Lemma matchingEntry_sameTracker entry s t :
  sameTracker s t → matchingEntry entry s = matchingEntry entry t.
Proof. intros (Hh & Hl & Hm). unfold matchingEntry. by rewrite Hh, Hl. Qed.

Lemma handleEntry_sameTracker entry s t s' t' :
  sameTracker s t → handleEntry entry s = Some s' → handleEntry entry t = Some t' →
  sameTracker s' t'.
Proof.
  intros Hst. unfold handleEntry.
  assert (∀ s1 t1,
            (if truthy (interactionId entry) then processEntry entry s else Some s) = Some s1 →
            (if truthy (interactionId entry) then processEntry entry t else Some t) = Some t1 →
            sameTracker s1 t1) as H1.
  { intros s1 t1. destruct (truthy _); [by apply processEntry_sameTracker|].
    by intros [= <-] [= <-]. }
  destruct (if truthy _ then processEntry entry s else _) as [s1|]; [|done].
  destruct (if truthy _ then processEntry entry t else _) as [t1|]; [|done].
  specialize (H1 _ _ eq_refl eq_refl). simpl.
  destruct (String.eqb _ _); [|by intros [= <-] [= <-]].
  rewrite (matchingEntry_sameTracker _ _ _ H1).
  destruct (matchingEntry entry t1) as [[|]|]; simpl; [by intros [= <-] [= <-]| |done].
  by apply processEntry_sameTracker.
Qed.

Lemma forEach_handleEntry_sameTracker entries s t s' t' :
  sameTracker s t →
  forEach handleEntry entries s = Some s' → forEach handleEntry entries t = Some t' →
  sameTracker s' t'.
Proof.
  revert s t. induction entries as [|e entries IH]; intros s t Hst; simpl.
  - by intros [= <-] [= <-].
  - destruct (handleEntry e s) as [s1|] eqn:H1; [|done].
    destruct (handleEntry e t) as [t1|] eqn:H2; [|done]. simpl.
    apply IH. by eapply handleEntry_sameTracker.
Qed.

Lemma sameTracker_trans s t u : sameTracker s t → sameTracker t u → sameTracker s u.
Proof. unfold sameTracker. intros (?&?&?) (?&?&?). repeat split; congruence. Qed.

Lemma sameTracker_sym s t : sameTracker s t → sameTracker t s.
Proof. unfold sameTracker. intros (?&?&?). by repeat split. Qed.

(** X7.  How the host cuts the entries into batches, and what the
    interaction count is when each batch arrives, does not matter for
    the objects, the list and the map: one batch [l1 ++ l2] leaves them
    as the batch [l1] followed by the batch [l2] does. *)
Theorem batches_can_be_split c c1 c2 l1 l2 s :
  consistent s →
  ∃ s' sm s'',
    handleEntries c (l1 ++ l2) s = Some s' ∧
    handleEntries c1 l1 s = Some sm ∧
    handleEntries c2 l2 sm = Some s'' ∧
    sameTracker s'' s'.
Proof.
  intros Hs.
  destruct (handleEntries_consistent c (l1 ++ l2) s Hs) as (s' & H' & _).
  destruct (handleEntries_consistent c1 l1 s Hs) as (sm & Hm & Hsm).
  destruct (handleEntries_consistent c2 l2 sm Hsm) as (s'' & H'' & _).
  exists s', sm, s''. split; [done|]. split; [done|]. split; [done|].
  apply handleEntries_Some in H' as (f12 & Hf12 & Ht' & _).
  apply handleEntries_Some in Hm as (f1 & Hf1 & Htm & _).
  apply handleEntries_Some in H'' as (g & Hg & Ht'' & _).
  rewrite forEach_app, Hf1 in Hf12. simpl in Hf12.
  eapply sameTracker_trans; [exact Ht''|].
  eapply sameTracker_trans; [|apply sameTracker_sym; exact Ht'].
  exact (forEach_handleEntry_sameTracker _ _ _ _ _ Htm Hg Hf12).
Qed.

Lemma batches_can_be_split_witness :
  ∃ s' sm s'',
    handleEntries 2 ([ev 1 300; ev 2 100] ++ [ev 1 350]) init = Some s' ∧
    handleEntries 1 [ev 1 300; ev 2 100] init = Some sm ∧
    handleEntries 2 [ev 1 350] sm = Some s'' ∧
    sameTracker s'' s'.
Proof.
  exact (batches_can_be_split 2 1 2 [ev 1 300; ev 2 100] [ev 1 350] init consistent_init).
Defined.

(** ** The entries array the metric shares with the interaction *)

Lemma handleEntry_event entry s :
  truthy (interactionId entry) = true → entryType entry ≠ "first-input" →
  handleEntry entry s = processEntry entry s.
Proof.
  intros Hid Hty. unfold handleEntry. rewrite Hid.
  destruct (processEntry entry s); simpl; [|done].
  by rewrite (proj2 (String.eqb_neq _ _) Hty).
Qed.

(** X8.  [metric.entries] is the entries array of the reported
    interaction itself, not a copy.  When a later entry of that
    interaction does not raise its latency, no call of the reporter is
    made and the metric object is not written to, and yet the entries
    read through the metric object now include the new entry. *)
Theorem metric_entries_are_shared c entry s r i m :
  consistent s →
  metrics s !! metric s = Some m →
  Metric.entries m = EntriesOf r →
  Metric.value m = Interaction.latency i →
  longestInteractionMap s !! interactionId entry = Some r →
  heap s !! r = Some i →
  truthy (interactionId entry) = true →
  entryType entry ≠ "first-input" →
  duration entry ≤ Interaction.latency i →
  estimateP98LongestInteraction c s = Some r →
  ∃ s',
    handleEntries c [entry] s = Some s' ∧
    reported s' = reported s ∧
    metrics s' = metrics s ∧
    readArray (heap s) (Metric.entries m) = Some (Interaction.entries i) ∧
    readArray (heap s') (Metric.entries m) = Some (Interaction.entries i ++ [entry]).
Proof.
  intros Hs Hm He Hv Hk Hi Hid Hty Hd Hest.
  unfold handleEntries. simpl.
  rewrite (handleEntry_event _ _ Hid Hty).
  rewrite (processEntry_lower_fragment _ _ _ _ Hs Hk Hi Hd). simpl.
  unfold estimateP98LongestInteraction, getInteractionCountForNavigation in *.
  state_fields. rewrite Hest.
  rewrite list_lookup_insert_eq by by eapply lookup_lt_Some. simpl.
  rewrite Hm. simpl. rewrite bool_decide_false by (simpl; intros Hne; by rewrite Hv in Hne).
  eexists. split; [done|]. state_fields. rewrite He. simpl.
  rewrite Hi, list_lookup_insert_eq by by eapply lookup_lt_Some. done.
Qed.

Lemma metric_entries_are_shared_witness :
  ∃ s', handleEntries 2 [ev 1 24] afterFirstEvent = Some s' ∧
        reported s' = reported afterFirstEvent ∧
        metrics s' = [{| Metric.value := 48; Metric.entries := EntriesOf 0%nat |}] ∧
        readArray (heap s') (EntriesOf 0%nat) = Some [firstEvent; ev 1 24].
Proof.
  destruct (metric_entries_are_shared 2 (ev 1 24) afterFirstEvent 0%nat
              {| Interaction.id := Some 1; Interaction.latency := 48;
                 Interaction.entries := [firstEvent] |}
              {| Metric.value := 48; Metric.entries := EntriesOf 0%nat |})
    as (s' & H' & Hrep & Hmet & _ & Hread).
  - apply reachable_consistent, afterFirstEvent_reachable.
  - reflexivity.
  - reflexivity.
  - reflexivity.
  - reflexivity.
  - reflexivity.
  - reflexivity.
  - discriminate.
  - simpl. lia.
  - reflexivity.
  - exists s'. split; [exact H'|]. split; [exact Hrep|].
    split; [exact Hmet|exact Hread].
Defined.

(** ** The page becomes hidden *)

(** X9.  Whatever the state, the hidden callback handles the pending
    records and then makes exactly one call of the reporter, a forced
    one, on the current metric object; the objects, the list and the map
    are those the records left.  The value it reports is negative only
    if no interaction has been counted since the baseline. *)
Theorem hidden_makes_one_forced_call c records s :
  consistent s →
  ∃ s1 s' call,
    handleEntries c records s = Some s1 ∧
    onHidden c records s = Some s' ∧
    reported s' = reported s1 ++ [call] ∧
    forceReport call = true ∧
    boundMetric call = metric s ∧
    (reportedValue call < 0 → getInteractionCountForNavigation c s ≤ 0) ∧
    sameTracker s' s1.
Proof.
  intros Hs.
  destruct (handleEntries_consistent c records s Hs) as (s1 & H1 & Hs1).
  destruct (onHidden_consistent c records s Hs) as (s' & Hon & _).
  pose proof Hon as H'.
  pose proof (handleEntries_Some _ _ _ _ H1) as (_ & _ & _ & Hprev & Hmet & _).
  pose proof (linked_report _ (consistent_linked _ Hs1)) as Hrep.
  pose proof (closed_metric _ (linked_closed _ (consistent_linked _ Hs1))) as Hlt.
  unfold onHidden in H'. rewrite H1 in H'. simpl in H'.
  destruct (metrics s1 !! metric s1) as [m|] eqn:Hm; [|done]. simpl in H'.
  apply callReport_Some in H' as (m' & es & Hm' & _ & ->).
  eexists s1, _, _. split; [done|]. split; [exact Hon|].
  assert (∃ v, Metric.value m' = v ∧
               (v < 0 → getInteractionCountForNavigation c s ≤ 0)) as (v & Hv & Hsmall).
  { exists (Metric.value m'). split; [done|].
    destruct (bool_decide (Metric.value m < 0)) eqn:Hneg; simpl in *.
    - destruct (bool_decide (getInteractionCountForNavigation c s1 > 0)) eqn:HN;
        unfold setMetric in *; state_fields.
      + rewrite Hrep, list_lookup_insert_eq in Hm' by done. injection Hm' as <-.
        simpl. lia.
      + apply bool_decide_eq_false in HN.
        unfold getInteractionCountForNavigation in *. rewrite Hprev in HN. lia.
    - apply bool_decide_eq_false in Hneg. rewrite Hrep, Hm in Hm'.
      injection Hm' as <-. lia. }
  assert (report (if bool_decide (Metric.value m < 0) &&
                     bool_decide (getInteractionCountForNavigation c s1 > 0)
                  then setMetric {| Metric.value := 0; Metric.entries := NewArray |} s1
                  else s1) = metric s) as Hbound.
  { destruct (_ && _); unfold setMetric; state_fields; congruence. }
  split.
  { state_fields. f_equal. by destruct (_ && _). }
  split; [done|]. split; [exact Hbound|]. split; [simpl; by rewrite Hv|].
  unfold sameTracker. state_fields. by destruct (_ && _).
Qed.

Lemma hidden_makes_one_forced_call_witness :
  ∃ s', onHidden 12 [ev 11 200] tenInteractions = Some s' ∧
        (λ call, (forceReport call, reportedValue call)) <$> reported s'
          = [(false, 100); (false, 200); (true, 200)].
Proof.
  destruct (hidden_makes_one_forced_call 12 [ev 11 200] tenInteractions)
    as (s1 & s' & call & H1 & H' & Hrep & _).
  - apply reachable_consistent, tenInteractions_reachable.
  - exists s'. split; [exact H'|].
    vm_compute in H'. injection H' as <-. reflexivity.
Defined.

(** X10.  A restore followed by the page becoming hidden, with no
    entries in between: the only call is the forced one on the new
    metric object, without entries; it reports 0 when the host has
    counted interactions since the restore, and the unset value of the
    new metric object when it has not. *)
Theorem restore_then_hidden c c' s :
  ∃ s1 s2,
    onBFCacheRestore c s = Some s1 ∧
    onHidden c' [] s1 = Some s2 ∧
    reported s2 = reported s ++
      [{| forceReport := true;
          boundMetric := length (metrics s);
          reportedValue := if bool_decide (c' > c) then 0 else Metric.value initMetric;
          reportedEntries := [] |}] ∧
    longestInteractionList s2 = [].
Proof.
  assert (onHidden c' [] {| heap := heap s;
            longestInteractionList := [];
            longestInteractionMap := longestInteractionMap s;
            prevInteractionCount := c;
            metrics := metrics s ++ [initMetric];
            metric := length (metrics s);
            report := length (metrics s);
            reported := reported s |}
          = callReport true
              (if bool_decide (c' > c)
               then setMetric {| Metric.value := 0; Metric.entries := NewArray |}
                      {| heap := heap s;
                         longestInteractionList := [];
                         longestInteractionMap := longestInteractionMap s;
                         prevInteractionCount := c;
                         metrics := metrics s ++ [initMetric];
                         metric := length (metrics s);
                         report := length (metrics s);
                         reported := reported s |}
               else {| heap := heap s;
                       longestInteractionList := [];
                       longestInteractionMap := longestInteractionMap s;
                       prevInteractionCount := c;
                       metrics := metrics s ++ [initMetric];
                       metric := length (metrics s);
                       report := length (metrics s);
                       reported := reported s |})) as Hon.
  { unfold onHidden, handleEntries. simpl.
    unfold estimateP98LongestInteraction, getInteractionCountForNavigation. state_fields.
    rewrite index_neg by (simpl; lia). simpl.
    rewrite lookup_app_r by done. rewrite Nat.sub_diag. simpl.
    rewrite (bool_decide_ext (c' - c > 0) (c' > c)) by lia. done. }
  unfold onBFCacheRestore. case_bool_decide as Hc.
  - eexists _, _. split; [reflexivity|]. rewrite Hon.
    unfold callReport, setMetric. state_fields.
    rewrite list_lookup_insert_eq by (rewrite length_app; simpl; lia). simpl.
    split; [reflexivity|]. split; reflexivity.
  - eexists _, _. split; [reflexivity|]. rewrite Hon.
    unfold callReport. state_fields.
    rewrite lookup_app_r by done. rewrite Nat.sub_diag. simpl.
    split; [reflexivity|]. split; reflexivity.
Qed.

(** ** The ids of the list and the size of the map *)

Lemma consistent_ids_distinct s n1 n2 r1 r2 i1 i2 :
  linked s →
  longestInteractionList s !! n1 = Some r1 →
  longestInteractionList s !! n2 = Some r2 →
  heap s !! r1 = Some i1 → heap s !! r2 = Some i2 →
  Interaction.id i1 = Interaction.id i2 →
  n1 = n2.
Proof.
  intros Hl H1 H2 Hi1 Hi2 Hid.
  pose proof (linked_list_map _ Hl _ _ (list_elem_of_lookup_2 _ _ _ H1) Hi1) as Hm1.
  pose proof (linked_list_map _ Hl _ _ (list_elem_of_lookup_2 _ _ _ H2) Hi2) as Hm2.
  rewrite Hid in Hm1. assert (r1 = r2) as -> by congruence.
  by eapply (NoDup_lookup _ _ _ _ (linked_NoDup _ Hl)).
Qed.

(** X11.  After every sequence of notifications, restores included, no
    id occurs twice in the list: two positions of the list never hold
    interactions with the same id. *)
Theorem tracked_ids_are_distinct ns :
  ∃ s, run ns init = Some s ∧
       ∀ n1 n2 r1 r2 i1 i2,
         longestInteractionList s !! n1 = Some r1 →
         longestInteractionList s !! n2 = Some r2 →
         heap s !! r1 = Some i1 → heap s !! r2 = Some i2 →
         Interaction.id i1 = Interaction.id i2 →
         n1 = n2.
Proof.
  destruct (run_consistent ns) as (s & Hrun & Hs). exists s. split; [done|].
  intros n1 n2 r1 r2 i1 i2. apply consistent_ids_distinct, Hs.
Qed.

Lemma mirrored_map_size s :
  consistent s → mapMirrorsList s →
  size (longestInteractionMap s) = length (longestInteractionList s).
Proof.
  intros Hs Hmirror.
  pose proof (consistent_linked _ Hs) as Hl.
  destruct (resolve_total _ _ (closed_list _ (linked_closed _ Hl))) as [objs Hres].
  set (keys := (λ p : ref * Interaction.t, Interaction.id p.2) <$> objs).
  assert (NoDup objs) as Hnd.
  { apply (NoDup_fmap_1 fst). rewrite (resolve_fst _ _ _ Hres). apply Hl. }
  assert (NoDup keys) as Hkeys.
  { apply NoDup_fmap_2_strong; [|done]. intros [r1 i1] [r2 i2] H1 H2 Hid. simpl in Hid.
    apply list_elem_of_lookup in H1 as [n1 H1]. apply list_elem_of_lookup in H2 as [n2 H2].
    destruct (resolve_lookup_inv _ _ _ _ _ Hres H1) as [Hl1 Hh1].
    destruct (resolve_lookup_inv _ _ _ _ _ Hres H2) as [Hl2 Hh2].
    pose proof (consistent_ids_distinct _ _ _ _ _ _ _ Hl Hl1 Hl2 Hh1 Hh2 Hid) as ->.
    congruence. }
  assert (dom (longestInteractionMap s) = list_to_set keys) as Hdom.
  { apply set_eq. intros k. rewrite elem_of_dom, elem_of_list_to_set. unfold keys.
    rewrite list_elem_of_fmap. split.
    - intros [r Hr]. apply Hmirror in Hr as [Hin Hid].
      apply list_elem_of_lookup in Hin as [n Hn].
      destruct (resolve_lookup _ _ _ _ _ Hres Hn) as (i & Hobj & Hi).
      rewrite Hi in Hid. injection Hid as <-.
      exists (r, i). split; [done|]. by eapply list_elem_of_lookup_2.
    - intros ([r i] & -> & Hp). exists r. apply Hmirror.
      pose proof (resolve_elem_of _ _ _ _ Hres Hp) as Hi. simpl in *.
      split; [|by rewrite Hi].
      rewrite <-(resolve_fst _ _ _ Hres). by apply (list_elem_of_fmap_2 fst _ (r, i)). }
  rewrite <-size_dom, Hdom, size_list_to_set by done.
  unfold keys. by rewrite length_fmap, <-(length_fmap fst objs), (resolve_fst _ _ _ Hres).
Qed.

(** X12.  As long as no restore is delivered, the map has exactly as
    many ids as the list has interactions, so at most ten: the memory the
    module keeps reachable stays bounded. *)
Theorem map_is_bounded_without_restore ns :
  Forall (λ n, ∀ c, n ≠ BFCacheRestore c) ns →
  ∃ s, run ns init = Some s ∧
       size (longestInteractionMap s) = length (longestInteractionList s) ∧
       (size (longestInteractionMap s) ≤ 10)%nat.
Proof.
  intros Hns. destruct (mapMirrorsList_without_restore ns Hns) as (s & Hrun & Hm).
  pose proof (reachable_consistent s (ex_intro _ ns Hrun)) as Hs.
  exists s. split; [done|].
  pose proof (mirrored_map_size s Hs Hm) as Hsize. split; [done|].
  rewrite Hsize. apply Hs.
Qed.

Lemma map_is_bounded_without_restore_witness :
  ∃ s, run [Entries 6 (increasing 6); Hidden 12 (increasing 12)] init = Some s ∧
       size (longestInteractionMap s) = 10%nat.
Proof.
  destruct (map_is_bounded_without_restore
              [Entries 6 (increasing 6); Hidden 12 (increasing 12)])
    as (s & Hrun & Hsize & _).
  - repeat constructor; discriminate.
  - exists s. split; [exact Hrun|]. rewrite Hsize.
    vm_compute in Hrun. injection Hrun as <-. reflexivity.
Defined.

(** ** The [first-input] entry of an interaction already seen *)

(** X13.  When the [event] entry of an input is taken and its
    [first-input] entry, which has no id but the same duration and start
    time, comes after it, the [first-input] entry is dropped: the batch
    with both leaves the state the batch with the [event] entry alone
    leaves.  (The map has to mirror the list, as it does until a
    restore.) *)
Theorem first_input_after_event_is_dropped entry firstInputEntry s :
  consistent s →
  mapWithinList s →
  truthy (interactionId entry) = true →
  entryType entry ≠ "first-input" →
  acceptable entry s →
  truthy (interactionId firstInputEntry) = false →
  entryType firstInputEntry = "first-input" →
  duration firstInputEntry = duration entry →
  startTime firstInputEntry = startTime entry →
  forEach handleEntry [entry; firstInputEntry] s = forEach handleEntry [entry] s.
Proof.
  intros Hs Hw Hid Hty Hyes Hid' Hty' Hd Ht. simpl.
  rewrite (handleEntry_event _ _ Hid Hty).
  destruct (processEntry_consistent entry s Hs) as (s1 & H1 & Hs1).
  rewrite H1. simpl.
  assert (hasMatchingEntry firstInputEntry s1) as Hmatch.
  { pose proof (linked_closed _ (consistent_linked _ Hs)) as Hc.
    destruct (longestInteractionMap s !! interactionId entry) as [r|] eqn:Hk.
    - destruct (lookup_lt_is_Some_2 _ _ (closed_map _ Hc _ _ Hk)) as [i Hi].
      destruct (processEntry_existing entry s r i Hs Hk Hi) as (l & Hl & Hp).
      rewrite Hp in H1. injection H1 as <-.
      exists r, (mergeEntry i entry), entry. state_fields.
      split; [rewrite Hl; by eapply Hw|].
      split; [apply list_lookup_insert_eq; by eapply lookup_lt_Some|].
      split; [|done]. simpl. apply elem_of_app. right. by left.
    - destruct (processEntry_new entry s Hs Hk Hyes) as (s1' & Hp & _ & Hh & Hin & _).
      assert (s1' = s1) as -> by congruence.
      exists (length (heap s)), (newInteraction entry), entry.
      split; [done|]. split; [by rewrite Hh, lookup_app_r, Nat.sub_diag|].
      split; [|done]. simpl. by left. }
  unfold handleEntry. rewrite Hid'. simpl.
  rewrite (proj2 (String.eqb_eq _ _) Hty').
  destruct (matchingEntry_total firstInputEntry s1) as [found Hfound]; [apply Hs1|].
  rewrite Hfound. simpl.
  apply (matchingEntry_spec _ _ _ Hfound) in Hmatch as ->. done.
Qed.

Lemma first_input_after_event_is_dropped_witness :
  forEach handleEntry [firstEvent; firstInput None 48 5] init =
  forEach handleEntry [firstEvent] init.
Proof.
  apply first_input_after_event_is_dropped.
  - apply consistent_init.
  - intros k r Hk. simpl in Hk. by rewrite lookup_empty in Hk.
  - reflexivity.
  - discriminate.
  - right. left. simpl. unfold MAX_INTERACTIONS_TO_CONSIDER. lia.
  - reflexivity.
  - reflexivity.
  - reflexivity.
  - reflexivity.
Defined.

(** ** Ids that are in the map but not in the list *)

Lemma resolve_insert_notin h l r x :
  r ∉ l → resolve (<[r := x]> h) l = resolve h l.
Proof.
  intros Hr. unfold resolve. induction l as [|r' l IH]; [done|].
  apply not_elem_of_cons in Hr as [Hne Hr]. simpl.
  rewrite list_lookup_insert_ne by done. by rewrite IH.
Qed.

(** X14.  An entry whose id is in the map while the object there is not
    in the list (which is what a restore leaves behind) is merged into
    that object (entry appended, latency raised to the maximum) and never
    reaches the list: nothing else in the store changes, and the list,
    the map and every estimate stay as they are. *)
Theorem entry_for_object_outside_list entry s r :
  consistent s →
  longestInteractionMap s !! interactionId entry = Some r →
  r ∉ longestInteractionList s →
  ∃ s' i,
    heap s !! r = Some i ∧
    processEntry entry s = Some s' ∧
    heap s' = <[r := mergeEntry i entry]> (heap s) ∧
    heap s' !! r = Some (mergeEntry i entry) ∧
    longestInteractionList s' = longestInteractionList s ∧
    longestInteractionMap s' = longestInteractionMap s ∧
    ∀ c, estimatedLatency c s' = estimatedLatency c s.
Proof.
  intros Hs Hk Hr.
  pose proof (linked_closed _ (consistent_linked _ Hs)) as Hc.
  destruct (lookup_lt_is_Some_2 _ _ (closed_map _ Hc _ _ Hk)) as [i Hi].
  destruct (resolve_total _ _ (closed_list _ Hc)) as [objs Hres].
  rewrite processEntry_accepted; [|left; by eexists|done].
  rewrite (upsert_existing _ _ _ _ Hk Hi). simpl.
  erewrite sortAndTrim_short; [|apply Hs|state_fields; by rewrite resolve_insert_notin].
  rewrite sort_byLatencyDesc_id
    by (eapply consistent_resolve_sorted; [apply Hs|done]).
  rewrite (resolve_fst _ _ _ Hres).
  eexists _, i. split; [done|]. split; [done|]. state_fields. split; [done|].
  split; [apply list_lookup_insert_eq; by eapply lookup_lt_Some|].
  split; [done|]. split; [done|].
  intros c. unfold estimatedLatency, estimateP98LongestInteraction,
    getInteractionCountForNavigation. state_fields.
  destruct (index _ _) as [r'|] eqn:Hidx; [|done]. simpl.
  rewrite list_lookup_insert_ne; [done|]. intros ->.
  by apply index_elem_of in Hidx.
Qed.

Lemma entry_for_object_outside_list_witness :
  ∃ s', processEntry (ev 1 200) restoredAfterOne = Some s' ∧
        heap s' !! 0%nat =
          Some {| Interaction.id := Some 1; Interaction.latency := 200;
                  Interaction.entries := [ev 1 100; ev 1 200] |} ∧
        longestInteractionList s' = [] ∧
        estimatedLatency 5 s' = None.
Proof.
  destruct (entry_for_object_outside_list (ev 1 200) restoredAfterOne 0%nat)
    as (s' & i & Hi & H' & _ & Hmerged & Hl & _ & Hest).
  - apply reachable_consistent.
    exists [Entries 1 [ev 1 100]; BFCacheRestore 1]. vm_compute. reflexivity.
  - vm_compute. reflexivity.
  - simpl. apply not_elem_of_nil.
  - exists s'. split; [exact H'|].
    vm_compute in Hi. injection Hi as <-.
    split; [exact Hmerged|]. split; [exact Hl|]. rewrite Hest. reflexivity.
Defined.

(** ** The [first-input] entry that comes first *)

(** An entry that starts an interaction while the list has room. *)
Lemma processEntry_new_short entry s :
  consistent s →
  longestInteractionMap s !! interactionId entry = None →
  (length (longestInteractionList s) < MAX_INTERACTIONS_TO_CONSIDER)%nat →
  ∃ s', processEntry entry s = Some s' ∧
        consistent s' ∧
        heap s' = heap s ++ [newInteraction entry] ∧
        longestInteractionList s' ≡ₚ longestInteractionList s ++ [length (heap s)] ∧
        longestInteractionMap s' =
          <[interactionId entry := length (heap s)]> (longestInteractionMap s).
Proof.
  intros Hs Hk Hlen.
  destruct (processEntry_consistent entry s Hs) as (s' & Hp & Hs').
  exists s'. split; [done|]. split; [done|].
  rewrite processEntry_accepted, (upsert_new _ _ Hk) in Hp;
    [|right; by left|apply Hs]. simpl in Hp.
  destruct (upsert_linked entry s (consistent_linked _ Hs)) as (s1 & H1 & Hl1).
  rewrite (upsert_new _ _ Hk) in H1. injection H1 as <-.
  destruct (resolve_total _ _ (closed_list _ (linked_closed _ Hl1))) as [objs Hres].
  erewrite sortAndTrim_short in Hp; [|state_fields; rewrite length_app; simpl; lia|exact Hres].
  injection Hp as <-. state_fields.
  split; [done|]. split; [|done]. by rewrite (sort_fst_perm _ _ _ Hres).
Qed.

(** X15.  The deduplication only works in one order.  When the
    [first-input] entry of an input comes before its [event] entry and
    the list has room for two, both are taken: the list grows by two
    interactions, one under the id of the [event] entry and one under
    the missing id, both with the duration of the input. *)
Theorem first_input_before_event_counts_twice entry firstInputEntry s :
  consistent s →
  truthy (interactionId entry) = true →
  entryType entry ≠ "first-input" →
  truthy (interactionId firstInputEntry) = false →
  entryType firstInputEntry = "first-input" →
  duration firstInputEntry = duration entry →
  longestInteractionMap s !! interactionId entry = None →
  longestInteractionMap s !! interactionId firstInputEntry = None →
  ¬ hasMatchingEntry firstInputEntry s →
  (length (longestInteractionList s) + 2 ≤ MAX_INTERACTIONS_TO_CONSIDER)%nat →
  ∃ s',
    forEach handleEntry [firstInputEntry; entry] s = Some s' ∧
    length (longestInteractionList s') = (length (longestInteractionList s) + 2)%nat ∧
    (∃ r i, longestInteractionMap s' !! interactionId firstInputEntry = Some r ∧
            heap s' !! r = Some i ∧ Interaction.latency i = duration entry) ∧
    (∃ r i, longestInteractionMap s' !! interactionId entry = Some r ∧
            heap s' !! r = Some i ∧ Interaction.latency i = duration entry).
Proof.
  intros Hs Hid Hty Hid' Hty' Hd Hk Hk' Hno Hlen. simpl.
  assert (handleEntry firstInputEntry s = processEntry firstInputEntry s) as ->.
  { unfold handleEntry. rewrite Hid'. simpl. rewrite (proj2 (String.eqb_eq _ _) Hty').
    destruct (matchingEntry_total firstInputEntry s) as [found Hfound]; [apply Hs|].
    rewrite Hfound. simpl. destruct found; [|done].
    destruct Hno. by apply (matchingEntry_spec _ _ _ Hfound). }
  destruct (processEntry_new_short firstInputEntry s Hs Hk')
    as (s1 & H1 & Hs1 & Hh1 & Hl1 & Hm1); [lia|].
  rewrite H1. simpl. rewrite (handleEntry_event _ _ Hid Hty).
  assert (interactionId firstInputEntry ≠ interactionId entry) as Hne.
  { intros Heq. rewrite Heq, Hid in Hid'. done. }
  destruct (processEntry_new_short entry s1 Hs1)
    as (s2 & H2 & Hs2 & Hh2 & Hl2 & Hm2).
  { by rewrite Hm1, lookup_insert_ne. }
  { rewrite Hl1, length_app. simpl. lia. }
  rewrite H2. simpl. exists s2. split; [done|]. split; [|split].
  - rewrite Hl2, length_app, Hl1, length_app. simpl. lia.
  - exists (length (heap s)), (newInteraction firstInputEntry).
    rewrite Hm2, Hm1, lookup_insert_ne, lookup_insert_eq by done.
    split; [done|]. rewrite Hh2, Hh1.
    rewrite lookup_app_l by (rewrite length_app; simpl; lia).
    by rewrite lookup_app_r, Nat.sub_diag.
  - exists (length (heap s1)), (newInteraction entry).
    rewrite Hm2, lookup_insert_eq. split; [done|]. rewrite Hh2.
    by rewrite lookup_app_r, Nat.sub_diag.
Qed.

Lemma first_input_before_event_counts_twice_witness :
  ∃ s', forEach handleEntry [firstInput None 48 5; firstEvent] init = Some s' ∧
        length (longestInteractionList s') = 2%nat.
Proof.
  destruct (first_input_before_event_counts_twice firstEvent (firstInput None 48 5) init)
    as (s' & H' & Hlen & _).
  - apply consistent_init.
  - reflexivity.
  - discriminate.
  - reflexivity.
  - reflexivity.
  - reflexivity.
  - reflexivity.
  - reflexivity.
  - intros (r & i & prevEntry & Hr & _). simpl in Hr. by apply elem_of_nil in Hr.
  - simpl. unfold MAX_INTERACTIONS_TO_CONSIDER. lia.
  - exists s'. split; [exact H'|exact Hlen].
Defined.


(** ** The test of [processEntry] after a restore *)

(** While the map mirrors the list, the id of an entry is in the map
    exactly when an interaction of the list has it, and [processEntry]
    changes the state exactly in the three cases read on the list. *)
Lemma accepted_iff_tracked_when_mirrored entry s :
  consistent s → mapMirrorsList s →
  ∃ s', processEntry entry s = Some s' ∧
        (s' ≠ s ↔ acceptableAsTracked entry s) ∧
        (¬ acceptableAsTracked entry s → s' = s).
Proof.
  intros Hs Hm.
  assert (acceptable entry s ↔ acceptableAsTracked entry s) as Hiff.
  { unfold acceptable, acceptableAsTracked.
    rewrite (in_map_iff_in_list s (interactionId entry) Hm). done. }
  destruct (processEntry_accepted_iff entry s Hs) as (s' & Hp & Hchange & Hsame & _).
  exists s'. split; [done|]. rewrite <-Hiff. done.
Qed.

(** C5 after a restore.  Interaction 1 is seen, the page is restored, and
    ten interactions with latencies 200..1100 fill the list.  The id 1 is
    then not the id of any interaction of the list, the list has ten
    interactions, and the duration 5 does not exceed the latency 200 of
    the last one; none of the three cases holds.  [processEntry] still
    takes an entry with id 1 and duration 5, because the map holds the
    object from before the restore: the entry is appended to it. *)
Theorem C5_stale_id_is_taken :
  run [Entries 1 [ev 1 100]; BFCacheRestore 1; Entries 11 hundreds] init
    = Some fullAfterRestore ∧
  tracked fullAfterRestore =
    Some [(Some 11, 1100); (Some 10, 1000); (Some 9, 900); (Some 8, 800);
          (Some 7, 700); (Some 6, 600); (Some 5, 500); (Some 4, 400);
          (Some 3, 300); (Some 2, 200)] ∧
  longestInteractionMap fullAfterRestore !! Some 1 = Some 0%nat ∧
  ¬ acceptableAsTracked (ev 1 5) fullAfterRestore ∧
  processEntry (ev 1 5) fullAfterRestore ≠ Some fullAfterRestore ∧
  (s' ← processEntry (ev 1 5) fullAfterRestore;
   Interaction.entries <$> heap s' !! 0%nat) = Some [ev 1 100; ev 1 5].
Proof.
  split; [vm_compute; reflexivity|]. split; [vm_compute; reflexivity|].
  split; [vm_compute; reflexivity|]. split; [|split].
  - intros [(r & i & Hr & Hi & Hid)|[Hlen|(m & i & Hlast & Hi & Hd)]].
    + simpl in Hr.
      repeat (apply elem_of_cons in Hr as [->|Hr];
              [vm_compute in Hi; injection Hi as <-; discriminate Hid|]).
      by apply elem_of_nil in Hr.
    + vm_compute in Hlen. lia.
    + vm_compute in Hlast. injection Hlast as <-.
      vm_compute in Hi. injection Hi as <-. simpl in Hd. lia.
  - vm_compute. discriminate.
  - vm_compute. reflexivity.
Qed.
